(** * The password vault ([Keychain]) of Proj1_Starter

    A shallow embedding of [keychain.js] (class [Keychain]), of the helpers
    of [lib.js] it calls, and of the routes of the HTTP server
    ([server.js]), with the properties of the vault engine proved over it.

    The JavaScript built-ins the code calls ([TextEncoder], [Buffer],
    [JSON], [webcrypto.subtle], [webcrypto.getRandomValues]) are not part
    of the repository: they are the fields of the class [Platform].  The
    code of the repository is written once, over any platform. *)

From Stdlib Require Import ZArith NArith String Ascii List.
From Stdlib.Strings Require Byte.
From stdpp Require Import base option list gmap strings countable pretty.

Set Warnings "-register-all".
Open Scope string_scope.

(** ** Data *)

(** A [Uint8Array], [ArrayBuffer] or [Buffer]: the bytes it holds. *)
Abbreviation bytes := (list Byte.byte).

#[global] Instance byte_eq_dec : EqDecision Byte.byte.
Proof.
  intros x y. destruct (Byte.eqb x y) eqn:E.
  - left. now apply Byte.byte_dec_bl.
  - right. intros ->. rewrite Byte.byte_dec_lb in E; congruence.
Defined.

(** What [JSON.parse] can return.  Only the zero-ness of a number is ever
    inspected here, so numbers are kept as integers. *)
Inductive json : Type :=
  | JNull
  | JBool (b : bool)
  | JNum (n : Z)
  | JStr (s : string)
  | JArr (items : list json)
  | JObj (members : gmap string json).

(** The object literal whose own properties are the strings of [m]. *)
Definition string_object (m : gmap string string) : json := JObj (JStr <$> m).

Definition as_string (j : json) : option string :=
  match j with JStr s => Some s | _ => None end.

(** The entries map held by a JSON value, when it is an object all of whose
    own properties are strings. *)
Definition as_entries (j : json) : option (gmap string string) :=
  match j with
  | JObj m =>
      if bool_decide (map_Forall (fun _ v => is_Some (as_string v)) m)
      then Some (omap as_string m) else None
  | _ => None
  end.

(** An argument as a function receives it: [None] is [undefined].  The
    condition of [if (v)]. *)
Definition truthy (v : option json) : bool :=
  match v with
  | None => false
  | Some JNull => false
  | Some (JBool b) => b
  | Some (JNum n) => negb (n =? 0)%Z
  | Some (JStr s) => negb (String.eqb s EmptyString)
  | Some (JArr _) => true
  | Some (JObj _) => true
  end.

(** [a !== b] for [a] a string. *)
Definition strict_neq (a : string) (b : option json) : bool :=
  match b with
  | Some (JStr s) => negb (String.eqb a s)
  | _ => true
  end.

(** [o.name] for [o] returned by [JSON.parse], for a [name] that no built-in
    prototype defines (the names [load] reads: salt, iv, ciphertext).
    Reading a property of [null] throws; a primitive or an array has no such
    property. *)
Definition member (o : json) (name : string) : option (option json) :=
  match o with
  | JNull => None
  | JObj m => Some (m !! name)
  | _ => Some None
  end.

(** ** The platform *)

(** What [Buffer.from] throws: a TypeError for a value it takes no bytes
    from ([undefined], [null], a number, a boolean, an object that is neither
    an array nor array-like), a RangeError for an array-like object whose
    [length] no buffer can have. *)
Inductive BufferFault : Type :=
  | InvalidArgType
  | InvalidLength.

Class Platform := {
  (** a [CryptoKey] for AES-GCM *)
  CryptoKey : Type;
  (** [new TextEncoder().encode(str)] *)
  TextEncoder_encode : string -> bytes;
  (** [new TextDecoder().decode(buf)] *)
  TextDecoder_decode : bytes -> string;
  (** [Buffer.from(buf).toString('base64')] *)
  Buffer_toString_base64 : bytes -> string;
  (** [Buffer.from(x, 'base64')]; [None] when it throws *)
  Buffer_from_base64 : option json -> option bytes;
  (** the exception that [Buffer.from(x, 'base64')] throws, when it throws *)
  Buffer_from_fault : option json -> BufferFault;
  (** [JSON.parse(text)]; [None] when it throws (SyntaxError) *)
  JSON_parse : string -> option json;
  (** [JSON.stringify(value)] *)
  JSON_stringify : json -> string;
  (** SHA-256 *)
  SHA256 : bytes -> bytes;
  (** PBKDF2 over HMAC-SHA-256, from the HMAC key block, the salt and the
      iteration count, to a 256-bit AES-GCM key *)
  PBKDF2_HMAC_SHA256 : bytes -> bytes -> N -> CryptoKey;
  (** AES-GCM under a key and an iv *)
  AES_GCM_encrypt : CryptoKey -> bytes -> bytes -> bytes;
  (** AES-GCM decryption; [None] when authentication fails (OperationError) *)
  AES_GCM_decrypt : CryptoKey -> bytes -> bytes -> option bytes
}.

(** ** Effects: exceptions, the random source and the calls made *)

Inductive Exn : Type :=
  | Error (message : string)
  | SyntaxError
  | TypeError
  | RangeError
  | OperationError.

Inductive Completion (A : Type) : Type :=
  | Return (a : A)
  | Throw (e : Exn).
Arguments Return {A} a.
Arguments Throw {A} e.

(** The calls to the platform that the properties speak about. *)
Inductive Event : Type :=
  | CallRandom (n : nat)
  | CallDigest
  | CallParse
  | CallImportKey
  | CallDeriveKey
  | CallEncrypt
  | CallDecrypt.

(** The random source is a tape of bytes, of which [drawn] have been used;
    [calls] are the platform calls so far, oldest first. *)
Record World := {
  entropy : nat -> Byte.byte;
  drawn : nat;
  calls : list Event
}.

(** An [async] function: awaited in sequence, it runs to completion. *)
Definition Async (A : Type) : Type := World -> Completion A * World.

Definition ret {A} (a : A) : Async A := fun w => (Return a, w).

Definition throw {A} (e : Exn) : Async A := fun w => (Throw e, w).

Definition bind {A B} (c : Async A) (k : A -> Async B) : Async B :=
  fun w =>
    match c w with
    | (Return a, w') => k a w'
    | (Throw e, w') => (Throw e, w')
    end.

(** [try { c } catch (e) { h e }] *)
Definition try_catch {A} (c : Async A) (h : Exn -> Async A) : Async A :=
  fun w =>
    match c w with
    | (Return a, w') => (Return a, w')
    | (Throw e, w') => h e w'
    end.

Definition emit (e : Event) : Async unit :=
  fun w =>
    (Return tt,
     {| entropy := entropy w; drawn := drawn w; calls := calls w ++ [e] |}).

Definition of_option {A} (o : option A) (e : Exn) : Async A :=
  match o with
  | Some a => ret a
  | None => throw e
  end.

Notation "'let*' x ':=' c 'in' k" := (bind c (fun x => k))
  (at level 10, x name, c at level 100, k at level 200).
Notation "'let*' ' p ':=' c 'in' k" := (bind c (fun x => match x with p => k end))
  (at level 10, p pattern, c at level 100, k at level 200).
Notation "c ';;' k" := (bind c (fun _ => k))
  (at level 100, k at level 200, right associativity).

(** The next [n] bytes of the tape at position [i]. *)
Definition tape_block (tape : nat -> Byte.byte) (i n : nat) : bytes :=
  map tape (seq i n).

(** The result and the world after running [c]. *)
Definition result {A} (r : Completion A * World) : Completion A := fst r.
Definition after {A} (r : Completion A * World) : World := snd r.

(** The world once the calls [evs] have been made. *)
Definition logged (w : World) (evs : list Event) : World :=
  {| entropy := entropy w; drawn := drawn w; calls := calls w ++ evs |}.

(** The world once [n] bytes have been drawn. *)
Definition advanced (w : World) (n : nat) : World :=
  {| entropy := entropy w; drawn := drawn w + n; calls := calls w |}.

Section Program.

Context {pf : Platform}.

(** *** The calls to [webcrypto] and [JSON.parse] *)

Definition getRandomValues (n : nat) : Async bytes :=
  fun w =>
    (Return (tape_block (entropy w) (drawn w) n),
     {| entropy := entropy w; drawn := drawn w + n;
        calls := calls w ++ [CallRandom n] |}).

Definition subtle_digest (data : bytes) : Async bytes :=
  emit CallDigest;; ret (SHA256 data).

Definition JSON_parse_call (text : string) : Async json :=
  emit CallParse;; of_option (JSON_parse text) SyntaxError.

(** [subtle.importKey("raw", keyData, "PBKDF2", false, ["deriveKey"])]: the
    key object holds the raw bytes.  Key material of any length is taken,
    the empty one too, as the Web Crypto specification has it. *)
Definition subtle_importKey (keyData : bytes) : Async bytes :=
  emit CallImportKey;; ret keyData.

(** HMAC turns its key into one 64-byte block before anything else (RFC
    2104, section 2): a key longer than the block is hashed first, and the
    key is then padded with zero bytes up to the block size.  PBKDF2 (RFC
    8018, section 5.2) uses the password as that key, so the derived key
    depends on the password through its key block only. *)
Definition HMAC_BLOCK_SIZE : nat := 64.

Definition HMAC_key_block (K : bytes) : bytes :=
  let K0 := if decide (HMAC_BLOCK_SIZE < length K) then SHA256 K else K in
  K0 ++ replicate (HMAC_BLOCK_SIZE - length K0) Byte.x00.

(** [subtle.deriveKey({name: "PBKDF2", salt, iterations, hash: "SHA-256"},
    passwordKey, {name: "AES-GCM", length: 256}, true, ["encrypt", "decrypt"])] *)
Definition subtle_deriveKey (salt : bytes) (iterations : N) (passwordKey : bytes)
  : Async CryptoKey :=
  emit CallDeriveKey;;
  ret (PBKDF2_HMAC_SHA256 (HMAC_key_block passwordKey) salt iterations).

Definition subtle_encrypt (iv : bytes) (key : CryptoKey) (data : bytes) : Async bytes :=
  emit CallEncrypt;; ret (AES_GCM_encrypt key iv data).

Definition subtle_decrypt (iv : bytes) (key : CryptoKey) (data : bytes) : Async bytes :=
  emit CallDecrypt;; of_option (AES_GCM_decrypt key iv data) OperationError.

(** *** lib.js *)

Definition stringToBuffer (str : string) : bytes := TextEncoder_encode str.

Definition bufferToString (buf : bytes) : string := TextDecoder_decode buf.

Definition encodeBuffer (buf : bytes) : string := Buffer_toString_base64 buf.

(** The exception object of a fault of [Buffer.from]. *)
Definition fault_error (fault : BufferFault) : Exn :=
  match fault with
  | InvalidArgType => TypeError
  | InvalidLength => RangeError
  end.

Definition decodeBuffer (str : option json) : Async bytes :=
  of_option (Buffer_from_base64 str) (fault_error (Buffer_from_fault str)).

Definition getRandomBytes (n : nat) : Async bytes := getRandomValues n.

(** *** keychain.js *)

Definition PBKDF2_ITERATIONS : N := 100000.

(** Declared by the source and used nowhere in it. *)
Definition MAX_PASSWORD_LENGTH : nat := 64.

(** [data.salt], [secrets.encKey] and [secrets.vault].  The vault is an
    object used as a map from names to secrets; names and secrets are
    strings (the doc comment of [get]: the data, as a string, of a domain).
    [secrets_vault] holds the own properties of the object; it inherits
    those of [Object.prototype]. *)
Record Keychain := {
  data_salt : string;
  secrets_encKey : CryptoKey;
  secrets_vault : gmap string string
}.

Definition with_vault (k : Keychain) (v : gmap string string) : Keychain :=
  {| data_salt := data_salt k;
     secrets_encKey := secrets_encKey k;
     secrets_vault := v |}.

Definition constructor (salt : bytes) (encKey : CryptoKey) : Keychain :=
  {| data_salt := encodeBuffer salt;
     secrets_encKey := encKey;
     secrets_vault := ∅ |}.

(** The key that [deriveKey] returns. *)
Definition derived_key (password : string) (salt : bytes) : CryptoKey :=
  PBKDF2_HMAC_SHA256 (HMAC_key_block (stringToBuffer password)) salt PBKDF2_ITERATIONS.

Definition deriveKey (password : string) (salt : bytes) : Async CryptoKey :=
  let* passwordKey := subtle_importKey (stringToBuffer password) in
  let* encKey := subtle_deriveKey salt PBKDF2_ITERATIONS passwordKey in
  ret encKey.

Definition init (password : string) : Async Keychain :=
  let* salt := getRandomBytes 16 in
  let* encKey := deriveKey password salt in
  ret (constructor salt encKey).

Definition INTEGRITY_MESSAGE : string :=
  "Integrity check failed: Checksum does not match!".

Definition DECRYPT_MESSAGE : string :=
  "Failed to decrypt: Invalid password or corrupted data.".

(** What [load] returns: a keychain whose vault is an entries map, or a
    keychain whose [secrets.vault] was set to a JSON value that is not one
    ([load] assigns whatever [JSON.parse] returned). *)
Inductive Opened : Type :=
  | Engine (k : Keychain)
  | Foreign (k : Keychain) (vault : json).

Definition assign_vault (k : Keychain) (vault : json) : Opened :=
  match as_entries vault with
  | Some entries => Engine (with_vault k entries)
  | None => Foreign k vault
  end.

(** Lines 75 to 81 of [load]. *)
Definition verify_checksum (repr : string) (trustedDataCheck : option json) : Async unit :=
  if truthy trustedDataCheck then
    let* checksumBuffer := subtle_digest (stringToBuffer repr) in
    let computedChecksum := encodeBuffer checksumBuffer in
    if strict_neq computedChecksum trustedDataCheck
    then throw (Error INTEGRITY_MESSAGE)
    else ret tt
  else ret tt.

Definition read_member (o : json) (name : string) : Async (option json) :=
  of_option (member o name) TypeError.

(** Lines 83 to 109 of [load]: parse the representation, derive the key,
    decrypt, parse the plaintext, build the keychain. *)
Definition open_repr (password : string) (repr : string) : Async Opened :=
  let* reprObj := JSON_parse_call repr in
  let* salt_field := read_member reprObj "salt" in
  let* salt := decodeBuffer salt_field in
  let* iv_field := read_member reprObj "iv" in
  let* iv := decodeBuffer iv_field in
  let* ciphertext_field := read_member reprObj "ciphertext" in
  let* ciphertext := decodeBuffer ciphertext_field in
  let* encKey := deriveKey password salt in
  let* decryptedBuffer :=
    try_catch (subtle_decrypt iv encKey ciphertext)
              (fun _ => throw (Error DECRYPT_MESSAGE)) in
  let vaultString := bufferToString decryptedBuffer in
  let* vault := JSON_parse_call vaultString in
  let keychain := constructor salt encKey in
  ret (assign_vault keychain vault).

Definition load (password : string) (repr : string) (trustedDataCheck : option json)
  : Async Opened :=
  verify_checksum repr trustedDataCheck;;
  open_repr password repr.

(** The object [{salt, iv, ciphertext}] that [dump] serialises. *)
Definition repr_object (salt iv ciphertext : string) : json :=
  string_object (<["salt" := salt]> (<["iv" := iv]> (<["ciphertext" := ciphertext]> ∅))).

Definition dump (k : Keychain) : Async (string * string) :=
  let vaultString := JSON_stringify (string_object (secrets_vault k)) in
  let* iv := getRandomBytes 12 in
  let* ciphertext := subtle_encrypt iv (secrets_encKey k) (stringToBuffer vaultString) in
  let repr := repr_object (data_salt k) (encodeBuffer iv) (encodeBuffer ciphertext) in
  let reprString := JSON_stringify repr in
  let* checksumBuffer := subtle_digest (stringToBuffer reprString) in
  let checksum := encodeBuffer checksumBuffer in
  ret (reprString, checksum).

(** The own property names of [Object.prototype], which every vault
    inherits ([{}] and the objects [JSON.parse] builds have it as their
    prototype). *)
Definition Object_prototype : list string :=
  [ "constructor"; "__defineGetter__"; "__defineSetter__"; "hasOwnProperty";
    "__lookupGetter__"; "__lookupSetter__"; "isPrototypeOf";
    "propertyIsEnumerable"; "toString"; "valueOf"; "__proto__";
    "toLocaleString" ].

(** What reading a property of the vault gives: a stored string,
    [undefined], or the member of [Object.prototype] of that name (a
    function; for [__proto__], [Object.prototype] itself). *)
Inductive Value : Type :=
  | VString (s : string)
  | VNull
  | VUndefined
  | VBuiltin (name : string).

(** [vault[name]] *)
Definition property (vault : gmap string string) (name : string) : Value :=
  match vault !! name with
  | Some s => VString s
  | None => if bool_decide (name ∈ Object_prototype) then VBuiltin name else VUndefined
  end.

(** [name in vault] *)
Definition in_operator (name : string) (vault : gmap string string) : bool :=
  bool_decide (is_Some (vault !! name)) || bool_decide (name ∈ Object_prototype).

Definition truthy_value (v : Value) : bool :=
  match v with
  | VString s => negb (String.eqb s EmptyString)
  | VBuiltin _ => true
  | VNull => false
  | VUndefined => false
  end.

(** [a || null] *)
Definition or_null (a : Value) : Value := if truthy_value a then a else VNull.

Definition get (k : Keychain) (name : string) : Value :=
  or_null (property (secrets_vault k) name).

(** [vault[name] = value] for a string [value].  When the vault has no own
    property [__proto__], the assignment runs the setter inherited from
    [Object.prototype], which ignores a value that is not an object. *)
Definition assign (vault : gmap string string) (name value : string) : gmap string string :=
  if bool_decide (name = "__proto__" ∧ vault !! name = None)
  then vault
  else <[name := value]> vault.

Definition set (k : Keychain) (name value : string) : Keychain :=
  with_vault k (assign (secrets_vault k) name value).

(** [delete vault[name]] removes an own property and does nothing else. *)
Definition remove (k : Keychain) (name : string) : bool * Keychain :=
  if in_operator name (secrets_vault k)
  then (true, with_vault k (delete name (secrets_vault k)))
  else (false, k).

(** *** A caller's session on one engine *)

Inductive Op : Type :=
  | OpGet (name : string)
  | OpSet (name value : string)
  | OpRemove (name : string)
  | OpDump.

(** Runs the calls in order on the engine; returns the engine at the end
    and the pairs [(repr, checksum)] that the calls of [dump] returned. *)
Fixpoint session (ops : list Op) (k : Keychain) : Async (Keychain * list (string * string)) :=
  match ops with
  | [] => ret (k, [])
  | OpGet name :: rest => let _ := get k name in session rest k
  | OpSet name value :: rest => session rest (set k name value)
  | OpRemove name :: rest => session rest (snd (remove k name))
  | OpDump :: rest =>
      let* sealed := dump k in
      let* ' (k', dumps) := session rest k in
      ret (k', sealed :: dumps)
  end.

(** The engine after the calls: the effect of the calls of [set] and
    [remove], in order. *)
Fixpoint engine_after (ops : list Op) (k : Keychain) : Keychain :=
  match ops with
  | [] => k
  | OpSet name value :: rest => engine_after rest (set k name value)
  | OpRemove name :: rest => engine_after rest (snd (remove k name))
  | _ :: rest => engine_after rest k
  end.

(** The scenario of the specification: create an engine, store one secret,
    seal.  Returns the engine and what [dump] returned. *)
Definition sealed_vault (password name value : string) : Async (Keychain * (string * string)) :=
  let* k := init password in
  let k := set k name value in
  let* sealed := dump k in
  ret (k, sealed).

(** *** server.js: [POST /init] *)

Inductive Body : Type :=
  | Rejected (error : string)
  | Failed (error : Exn)
  | Sealed (repr checksum : string).

Record Response := { status : nat; body : Body }.

(** [!password] for the [password] of the request body. *)
Definition not_password (password : option string) : bool :=
  match password with
  | None => true
  | Some p => String.eqb p EmptyString
  end.

(** [const { ... } = req.body] for the fields that a handler reads.
    [req.body] is [None] when it is [undefined], as the framework leaves it
    for a request without a JSON body: destructuring it throws a
    TypeError. *)
Definition destructure {A} (req_body : option A) : Async A :=
  of_option req_body TypeError.

(** The handler from the second statement of its [try] block on: from the
    password read from the request body ([None] when the body has no
    password) and the active keychain of the server, to the response and
    the active keychain. *)
Definition post_init (password : option string) (activeKeychain : option Keychain)
  : Async (Response * option Keychain) :=
  match password with
  | Some p =>
      if not_password password
      then ret ({| status := 400; body := Rejected "Password is required" |}, activeKeychain)
      else
        try_catch
          (let* k := init p in
           try_catch
             (let* ' (repr, checksum) := dump k in
              ret ({| status := 201; body := Sealed repr checksum |}, Some k))
             (fun error => ret ({| status := 500; body := Failed error |}, Some k)))
          (fun error => ret ({| status := 500; body := Failed error |}, activeKeychain))
  | None => ret ({| status := 400; body := Rejected "Password is required" |}, activeKeychain)
  end.

(** The whole handler, from [req.body]: the destructuring is the first
    statement of the [try] block, whose [catch] answers 500. *)
Definition request_init (req_body : option (option string))
  (activeKeychain : option Keychain) : Async (Response * option Keychain) :=
  try_catch
    (let* password := destructure req_body in
     post_init password activeKeychain)
    (fun error => ret ({| status := 500; body := Failed error |}, activeKeychain)).

(** *** server.js: the other routes

    A handler takes what it reads of the request ([None] for a field the
    request does not have; fields are strings, the expected checksum
    apart) and the active keychain of the server, and returns what it
    sends and the active keychain after.  [get_get], [post_set] and
    [post_remove] are the handlers for an active keychain that is an
    engine: one whose vault is an entries map of strings. *)

Definition double_quote : string := String (Ascii.ascii_of_nat 34) EmptyString.

Definition quoted (s : string) : string := double_quote ++ s ++ double_quote.

(** What [res.send] is given. *)
Inductive Sent : Type :=
  | SentError (error : string)
  | SentMessage (message : string)
  | SentNames (names : list string)
  | SentValue (name : string) (value : Value)
  | SentSealed (repr checksum : string).

Record Answer := { code : nat; sent : Sent }.

Definition NO_KEYCHAIN : string := "No keychain is loaded. Call /init or /load first.".

Definition NOT_FOUND : string := "Name not found".

(** [!s] for a string field of the request. *)
Definition absent (s : option string) : bool :=
  match s with
  | None => true
  | Some x => String.eqb x EmptyString
  end.

(** [s.includes(sub)] *)
Fixpoint includes (s sub : string) : bool :=
  String.prefix sub s ||
  match s with
  | EmptyString => false
  | String _ rest => includes rest sub
  end.

(** [error.message]: the message given to [new Error]; for an exception of
    the platform, the message [native] that the platform gave it. *)
Definition error_message (native : string) (error : Exn) : string :=
  match error with
  | Error message => message
  | _ => native
  end.

(** [Object.keys(vault)]: the own property names, in an order that this
    model of the vault does not keep. *)
Definition Object_keys (vault : gmap string string) : list string :=
  (map_to_list vault).*1.

(** The indices ["0"], ["1"], ... below [n], as property names. *)
Definition index_names (n : nat) : list string := pretty <$> seq 0 n.

(** [Object.keys(value)] for a value that [JSON.parse] returned: it throws
    on [null]; a boolean or a number has no own property; a string has its
    indices (a character of the model is a code unit), an array its
    indices, an object its members. *)
Definition Object_keys_json (value : json) : option (list string) :=
  match value with
  | JNull => None
  | JBool _ => Some []
  | JNum _ => Some []
  | JStr s => Some (index_names (String.length s))
  | JArr items => Some (index_names (length items))
  | JObj members => Some ((map_to_list members).*1)
  end.

(** [Object.keys(activeKeychain.secrets.vault)]; it throws a TypeError when
    the vault is [null]. *)
Definition vault_keys (activeKeychain : Opened) : Async (list string) :=
  match activeKeychain with
  | Engine k => ret (Object_keys (secrets_vault k))
  | Foreign _ vault => of_option (Object_keys_json vault) TypeError
  end.

(** [GET /get-all-names].  The active keychain is any that [POST /init] or
    [POST /load] left. *)
Definition get_get_all_names (native : string) (activeKeychain : option Opened)
  : Async (Answer * option Opened) :=
  match activeKeychain with
  | None =>
      ret ({| code := 400; sent := SentError "No keychain is loaded." |}, activeKeychain)
  | Some opened =>
      try_catch
        (let* names := vault_keys opened in
         ret ({| code := 200; sent := SentNames names |}, activeKeychain))
        (fun error =>
           ret ({| code := 500; sent := SentError (error_message native error) |},
                activeKeychain))
  end.

(** [POST /load].  The active keychain after may be one whose vault is not
    an entries map, so it is an [Opened]. *)
Definition post_load (native : string) (password repr : option string)
  (trustedDataCheck : option json) (activeKeychain : option Keychain)
  : Async (Answer * option Opened) :=
  match password, repr with
  | Some p, Some r =>
      if absent password || absent repr
      then ret ({| code := 400; sent := SentError "Password and repr are required" |},
                Engine <$> activeKeychain)
      else
        try_catch
          (let* opened := load p r trustedDataCheck in
           ret ({| code := 200; sent := SentMessage "Keychain loaded successfully" |},
                Some opened))
          (fun error =>
             if includes (error_message native error) "Failed to decrypt"
             then ret ({| code := 401; sent := SentError (error_message native error) |},
                       Engine <$> activeKeychain)
             else ret ({| code := 500; sent := SentError (error_message native error) |},
                       Engine <$> activeKeychain))
  | _, _ =>
      ret ({| code := 400; sent := SentError "Password and repr are required" |},
           Engine <$> activeKeychain)
  end.

(** [GET /get] *)
Definition get_get (native : string) (name : option string)
  (activeKeychain : option Keychain) : Async (Answer * option Keychain) :=
  try_catch
    (match activeKeychain with
     | None => ret ({| code := 400; sent := SentError NO_KEYCHAIN |}, activeKeychain)
     | Some k =>
         match name with
         | Some n =>
             if absent name
             then ret ({| code := 400;
                          sent := SentError (quoted "name" ++ " query parameter is required") |},
                       activeKeychain)
             else
               match get k n with
               | VNull => ret ({| code := 404; sent := SentError NOT_FOUND |}, activeKeychain)
               | value => ret ({| code := 200; sent := SentValue n value |}, activeKeychain)
               end
         | None =>
             ret ({| code := 400;
                     sent := SentError (quoted "name" ++ " query parameter is required") |},
                  activeKeychain)
         end
     end)
    (fun error =>
       ret ({| code := 500; sent := SentError (error_message native error) |},
            activeKeychain)).

(** [POST /set].  [value === undefined] is [value = None]. *)
Definition post_set (native : string) (name value : option string)
  (activeKeychain : option Keychain) : Async (Answer * option Keychain) :=
  match activeKeychain with
  | None => ret ({| code := 400; sent := SentError NO_KEYCHAIN |}, activeKeychain)
  | Some k =>
      match name, value with
      | Some n, Some v =>
          if absent name
          then ret ({| code := 400;
                       sent := SentError (quoted "name" ++ " and " ++ quoted "value"
                                          ++ " are required") |},
                    activeKeychain)
          else
            let k' := set k n v in
            try_catch
              (let* ' (repr, checksum) := dump k' in
               ret ({| code := 200; sent := SentSealed repr checksum |}, Some k'))
              (fun error =>
                 ret ({| code := 500; sent := SentError (error_message native error) |},
                      Some k'))
      | _, _ =>
          ret ({| code := 400;
                  sent := SentError (quoted "name" ++ " and " ++ quoted "value"
                                     ++ " are required") |},
               activeKeychain)
      end
  end.

(** [POST /remove] *)
Definition post_remove (native : string) (name : option string)
  (activeKeychain : option Keychain) : Async (Answer * option Keychain) :=
  match activeKeychain with
  | None => ret ({| code := 400; sent := SentError NO_KEYCHAIN |}, activeKeychain)
  | Some k =>
      match name with
      | Some n =>
          if absent name
          then ret ({| code := 400; sent := SentError (quoted "name" ++ " is required") |},
                    activeKeychain)
          else
            let (wasRemoved, k') := remove k n in
            if negb wasRemoved
            then ret ({| code := 404; sent := SentError NOT_FOUND |}, Some k')
            else
              try_catch
                (let* ' (repr, checksum) := dump k' in
                 ret ({| code := 200; sent := SentSealed repr checksum |}, Some k'))
                (fun error =>
                   ret ({| code := 500; sent := SentError (error_message native error) |},
                        Some k'))
      | None =>
          ret ({| code := 400; sent := SentError (quoted "name" ++ " is required") |},
               activeKeychain)
      end
  end.

(** *** server.js: the handlers, from [req.body]

    Each handler that reads [req.body] destructures it inside its [try]
    block, where [req.body] may be [undefined]; [POST /set] and
    [POST /remove] do so after the test of the active keychain. *)

Definition request_load (native : string)
  (req_body : option (option string * option string * option json))
  (activeKeychain : option Keychain) : Async (Answer * option Opened) :=
  try_catch
    (let* ' (password, repr, trustedDataCheck) := destructure req_body in
     post_load native password repr trustedDataCheck activeKeychain)
    (fun error =>
       if includes (error_message native error) "Failed to decrypt"
       then ret ({| code := 401; sent := SentError (error_message native error) |},
                 Engine <$> activeKeychain)
       else ret ({| code := 500; sent := SentError (error_message native error) |},
                 Engine <$> activeKeychain)).

Definition request_set (native : string) (req_body : option (option string * option string))
  (activeKeychain : option Keychain) : Async (Answer * option Keychain) :=
  try_catch
    (match activeKeychain with
     | None => ret ({| code := 400; sent := SentError NO_KEYCHAIN |}, activeKeychain)
     | Some _ =>
         let* ' (name, value) := destructure req_body in
         post_set native name value activeKeychain
     end)
    (fun error =>
       ret ({| code := 500; sent := SentError (error_message native error) |},
            activeKeychain)).

Definition request_remove (native : string) (req_body : option (option string))
  (activeKeychain : option Keychain) : Async (Answer * option Keychain) :=
  try_catch
    (match activeKeychain with
     | None => ret ({| code := 400; sent := SentError NO_KEYCHAIN |}, activeKeychain)
     | Some _ =>
         let* name := destructure req_body in
         post_remove native name activeKeychain
     end)
    (fun error =>
       ret ({| code := 500; sent := SentError (error_message native error) |},
            activeKeychain)).

End Program.

(** ** What the code relies on from the platform

    True of the built-ins: base64 and JSON decode what they encoded, UTF-8
    decodes the JSON text it encoded, and AES-GCM decrypts, under the same
    key and 12-byte iv, what it encrypted. *)
Class PlatformSound (pf : Platform) : Prop := {
  base64_decode_encode (b : bytes) :
    Buffer_from_base64 (Some (JStr (Buffer_toString_base64 b))) = Some b;
  JSON_parse_stringify (m : gmap string string) :
    JSON_parse (JSON_stringify (string_object m)) = Some (string_object m);
  utf8_decode_encode (j : json) :
    TextDecoder_decode (TextEncoder_encode (JSON_stringify j)) = JSON_stringify j;
  AES_GCM_decrypt_encrypt (key : CryptoKey) (iv data : bytes) :
    length iv = 12 ->
    AES_GCM_decrypt key iv (AES_GCM_encrypt key iv data) = Some data
}.

(** The engine was created for [password]: its key is the one derived from
    the password and the salt it carries. *)
Definition keyed_by {pf : Platform} (password : string) (k : Keychain) : Prop :=
  exists salt : bytes,
    data_salt k = encodeBuffer salt /\ secrets_encKey k = derived_key password salt.

(** The checksum of a representation: what [load] recomputes. *)
Definition checksum_of {pf : Platform} (repr : string) : string :=
  encodeBuffer (SHA256 (stringToBuffer repr)).

(** [load] does not throw at the integrity check: the check is skipped, or
    the checksum is the one of the representation. *)
Definition checksum_accepted {pf : Platform} (repr : string) (trustedDataCheck : option json)
  : bool :=
  negb (truthy trustedDataCheck) || negb (strict_neq (checksum_of repr) trustedDataCheck).

(** The salt, iv and ciphertext that [load] reads from a representation,
    when it reads them without throwing. *)
Definition sealed_fields {pf : Platform} (repr : string) : option (bytes * bytes * bytes) :=
  o ← JSON_parse repr;
  salt_field ← member o "salt";
  salt ← Buffer_from_base64 salt_field;
  iv_field ← member o "iv";
  iv ← Buffer_from_base64 iv_field;
  ciphertext_field ← member o "ciphertext";
  ciphertext ← Buffer_from_base64 ciphertext_field;
  Some (salt, iv, ciphertext).

(** The representation parses to an object whose [salt] is [salt]. *)
Definition carries_salt {pf : Platform} (salt : string) (repr : string) : Prop :=
  exists o, JSON_parse repr = Some o /\ member o "salt" = Some (Some (JStr salt)).

(** What [dump] returns for an engine in a world. *)
Definition sealed_iv (w : World) : bytes := tape_block (entropy w) (drawn w) 12.

Definition sealed_ciphertext {pf : Platform} (k : Keychain) (w : World) : bytes :=
  AES_GCM_encrypt (secrets_encKey k) (sealed_iv w)
    (stringToBuffer (JSON_stringify (string_object (secrets_vault k)))).

Definition sealed_repr {pf : Platform} (k : Keychain) (w : World) : string :=
  JSON_stringify
    (repr_object (data_salt k) (encodeBuffer (sealed_iv w))
       (encodeBuffer (sealed_ciphertext k w))).

(** The world at the start of a run: the tape, nothing drawn, no call made. *)
Definition fresh_world (tape : nat -> Byte.byte) : World :=
  {| entropy := tape; drawn := 0; calls := [] |}.

(** ** A small platform to run the code on

    Bytes travel as the string of the same bytes, a JSON text is the binary
    numeral of the code of the map it holds, the digest is a one-byte sum,
    the derived key is the pair of the key block and the salt, and the
    cipher prefixes the data with the key and the iv. *)
Module Mock.

Definition byte_add (a b : Byte.byte) : Byte.byte :=
  match Byte.of_N ((Byte.to_N a + Byte.to_N b) mod 256) with
  | Some c => c
  | None => Byte.x00
  end.

Definition sum_bytes (l : bytes) : Byte.byte := fold_right byte_add Byte.x00 l.

Fixpoint strip_prefix (p l : bytes) : option bytes :=
  match p, l with
  | [], _ => Some l
  | a :: p', b :: l' => if decide (a = b) then strip_prefix p' l' else None
  | _ :: _, [] => None
  end.

Fixpoint numeral (p : positive) : string :=
  match p with
  | xH => EmptyString
  | xO q => String "0" (numeral q)
  | xI q => String "1" (numeral q)
  end.

Fixpoint of_numeral (s : string) : option positive :=
  match s with
  | EmptyString => Some xH
  | String c r =>
      if Ascii.eqb c "0" then xO <$> of_numeral r
      else if Ascii.eqb c "1" then xI <$> of_numeral r
      else None
  end.

Definition stringify (j : json) : string :=
  match as_entries j with
  | Some m => numeral (encode m)
  | None => "null"
  end.

(** An array-like object whose [length] is 10^30: [{"length": 1e30}]. *)
Definition oversized : json := JObj {["length" := JNum (10 ^ 30)]}.

(** The one text that parses to an object with a member that is not a
    string: the object whose [salt] is [oversized]. *)
Definition OVERSIZED_SALT : string := "{salt:{length:1e30}}".

Definition parse (s : string) : option json :=
  if String.eqb s "null" then Some JNull
  else if String.eqb s OVERSIZED_SALT then Some (JObj {["salt" := oversized]})
  else p ← of_numeral s; m ← decode p; Some (string_object m).

Definition from_base64 (x : option json) : option bytes :=
  match x with
  | Some (JStr s) => Some (list_byte_of_string s)
  | _ => None
  end.

(** [Buffer.from] on an object with a numeric [length] above what a buffer
    can have throws the RangeError. *)
Definition from_fault (x : option json) : BufferFault :=
  match x with
  | Some (JObj m) =>
      match m !! "length" with
      | Some (JNum n) => if (2 ^ 53 <=? n)%Z then InvalidLength else InvalidArgType
      | _ => InvalidArgType
      end
  | _ => InvalidArgType
  end.

(** A self-delimiting code of a byte string. *)
Fixpoint frame (l : bytes) : bytes :=
  match l with
  | [] => [Byte.x00]
  | b :: r => Byte.x01 :: b :: frame r
  end.

(** The key is the pair of the key block and the salt it was derived from. *)
Definition key_tag (key : bytes * bytes) : bytes := frame (fst key) ++ frame (snd key).

Definition encrypt (key : bytes * bytes) (iv data : bytes) : bytes :=
  key_tag key ++ iv ++ data.

Definition decrypt (key : bytes * bytes) (iv data : bytes) : option bytes :=
  strip_prefix (key_tag key ++ iv) data.

Definition platform : Platform := {|
  CryptoKey := bytes * bytes;
  TextEncoder_encode := list_byte_of_string;
  TextDecoder_decode := string_of_list_byte;
  Buffer_toString_base64 := string_of_list_byte;
  Buffer_from_base64 := from_base64;
  Buffer_from_fault := from_fault;
  JSON_parse := parse;
  JSON_stringify := stringify;
  SHA256 := fun data => [sum_bytes data];
  PBKDF2_HMAC_SHA256 := fun block salt _ => (block, salt);
  AES_GCM_encrypt := encrypt;
  AES_GCM_decrypt := decrypt
|}.

(** The tape 0, 1, 2, ... *)
Definition counting (i : nat) : Byte.byte :=
  match Byte.of_nat (i mod 256) with
  | Some b => b
  | None => Byte.x00
  end.

Definition world : World := fresh_world counting.

#[local] Existing Instance platform.

(** An engine created for a password, with one secret stored. *)
Definition password : string := "correct horse".

Definition salt : bytes := tape_block counting 0 16.

Definition engine : Keychain :=
  set (constructor salt (derived_key password salt)) "github.com" "s3cr3t".

(** The password followed by the character of code 0. *)
Definition password_nul : string := password ++ String Ascii.zero EmptyString.

(** A representation whose ciphertext is, under the key of [password], the
    encryption of a text that is not JSON. *)
Definition not_json : bytes := stringToBuffer "not json".

Definition iv : bytes := tape_block counting 16 12.

Definition ciphertext_of_not_json : bytes :=
  AES_GCM_encrypt (derived_key password salt) iv not_json.

Definition repr_of_not_json : string :=
  JSON_stringify
    (repr_object (encodeBuffer salt) (encodeBuffer iv)
       (encodeBuffer ciphertext_of_not_json)).

(** A representation whose ciphertext is the encryption of the JSON text
    [null], which is not an entries map. *)
Definition ciphertext_of_null : bytes :=
  AES_GCM_encrypt (derived_key password salt) iv (stringToBuffer "null").

Definition repr_of_null : string :=
  JSON_stringify
    (repr_object (encodeBuffer salt) (encodeBuffer iv)
       (encodeBuffer ciphertext_of_null)).

(** The message of the TypeError of destructuring [undefined]. *)
Definition NATIVE_MESSAGE : string :=
  "Cannot destructure property 'password' of 'req.body' as it is undefined.".

End Mock.

(** * Properties *)

(** ** The steps of the code, as equations *)

Ltac unfold_async :=
  unfold of_option, try_catch, bind, emit, ret, throw, result, after in *.

Section Steps.

Context {pf : Platform}.

Lemma as_entries_string_object (m : gmap string string) :
  as_entries (string_object m) = Some m.
Proof.
  unfold as_entries, string_object.
  rewrite bool_decide_eq_true_2.
  - f_equal. apply map_eq. intros i.
    rewrite lookup_omap, lookup_fmap. now destruct (m !! i).
  - intros i v. rewrite lookup_fmap.
    destruct (m !! i); simpl; intros E; inversion E; subst; simpl; eauto.
Qed.

Lemma tape_block_length (tape : nat -> Byte.byte) (i n : nat) :
  length (tape_block tape i n) = n.
Proof. unfold tape_block. now rewrite length_map, length_seq. Qed.

Lemma member_salt (s i c : string) :
  member (repr_object s i c) "salt" = Some (Some (JStr s)).
Proof.
  unfold member, repr_object, string_object.
  now rewrite lookup_fmap, lookup_insert_eq.
Qed.

Lemma member_iv (s i c : string) :
  member (repr_object s i c) "iv" = Some (Some (JStr i)).
Proof.
  unfold member, repr_object, string_object.
  rewrite lookup_fmap, lookup_insert_ne by discriminate.
  now rewrite lookup_insert_eq.
Qed.

Lemma member_ciphertext (s i c : string) :
  member (repr_object s i c) "ciphertext" = Some (Some (JStr c)).
Proof.
  unfold member, repr_object, string_object.
  rewrite lookup_fmap, !lookup_insert_ne by discriminate.
  now rewrite lookup_insert_eq.
Qed.

Lemma deriveKey_eq (password : string) (salt : bytes) (w : World) :
  deriveKey password salt w =
  (Return (derived_key password salt), logged w [CallImportKey; CallDeriveKey]).
Proof.
  unfold deriveKey, subtle_importKey, subtle_deriveKey, derived_key, logged.
  unfold_async; simpl. now rewrite <- app_assoc.
Qed.

(** [init] draws 16 bytes, derives the key and returns the new engine. *)
Lemma init_eq (password : string) (w : World) :
  init password w =
  (Return (constructor (tape_block (entropy w) (drawn w) 16)
             (derived_key password (tape_block (entropy w) (drawn w) 16))),
   logged (advanced w 16) [CallRandom 16; CallImportKey; CallDeriveKey]).
Proof.
  unfold init, getRandomBytes, getRandomValues. unfold bind at 1. simpl.
  unfold bind at 1. rewrite deriveKey_eq. unfold ret, logged, advanced; simpl.
  now rewrite <- app_assoc.
Qed.

(** [dump] draws 12 bytes, encrypts, serialises and digests; it returns. *)
Lemma dump_eq (k : Keychain) (w : World) :
  dump k w =
  (Return (sealed_repr k w, checksum_of (sealed_repr k w)),
   logged (advanced w 12) [CallRandom 12; CallEncrypt; CallDigest]).
Proof.
  unfold dump, getRandomBytes, getRandomValues, subtle_encrypt, subtle_digest.
  unfold sealed_repr, sealed_ciphertext, sealed_iv, checksum_of, logged, advanced.
  unfold_async; simpl. now rewrite <- !app_assoc.
Qed.

Lemma verify_checksum_eq (repr : string) (t : option json) (w : World) :
  verify_checksum repr t w =
  if truthy t then
    (if strict_neq (checksum_of repr) t
     then Throw (Error INTEGRITY_MESSAGE) else Return tt,
     logged w [CallDigest])
  else (Return tt, w).
Proof.
  unfold verify_checksum, subtle_digest, checksum_of, logged.
  destruct (truthy t); [|reflexivity].
  unfold_async; simpl.
  now destruct (strict_neq _ t).
Qed.

(** The integrity check passes exactly when the checksum is accepted. *)
Lemma verify_checksum_accepted (repr : string) (t : option json) (w : World) :
  checksum_accepted repr t = true ->
  verify_checksum repr t w = (Return tt, if truthy t then logged w [CallDigest] else w).
Proof.
  unfold checksum_accepted. rewrite verify_checksum_eq.
  destruct (truthy t); simpl; [|reflexivity].
  now intros ->%negb_true_iff.
Qed.

Lemma load_accepted (password repr : string) (t : option json) (w : World) :
  checksum_accepted repr t = true ->
  load password repr t w =
  open_repr password repr (if truthy t then logged w [CallDigest] else w).
Proof.
  intros H. unfold load. unfold bind at 1.
  now rewrite verify_checksum_accepted.
Qed.

(** From a representation whose three fields can be read, [load] goes on to
    decrypt; it throws the decryption error when AES-GCM rejects, the parse
    error of [JSON.parse] when the plaintext is not JSON, and returns
    otherwise. *)
Lemma open_repr_eq (password repr : string) (w : World) (salt iv ct : bytes) :
  sealed_fields repr = Some (salt, iv, ct) ->
  open_repr password repr w =
  match AES_GCM_decrypt (derived_key password salt) iv ct with
  | None =>
      (Throw (Error DECRYPT_MESSAGE),
       logged w [CallParse; CallImportKey; CallDeriveKey; CallDecrypt])
  | Some plaintext =>
      (match JSON_parse (bufferToString plaintext) with
       | None => Throw SyntaxError
       | Some vault =>
           Return (assign_vault (constructor salt (derived_key password salt)) vault)
       end,
       logged w [CallParse; CallImportKey; CallDeriveKey; CallDecrypt; CallParse])
  end.
Proof.
  unfold sealed_fields. intros H.
  destruct (JSON_parse repr) as [o|] eqn:Ho; simpl in H; [|discriminate].
  destruct (member o "salt") as [sf|] eqn:Hsf; simpl in H; [|discriminate].
  destruct (Buffer_from_base64 sf) as [salt'|] eqn:Hs; simpl in H; [|discriminate].
  destruct (member o "iv") as [ivf|] eqn:Hivf; simpl in H; [|discriminate].
  destruct (Buffer_from_base64 ivf) as [iv'|] eqn:Hiv; simpl in H; [|discriminate].
  destruct (member o "ciphertext") as [cf|] eqn:Hcf; simpl in H; [|discriminate].
  destruct (Buffer_from_base64 cf) as [ct'|] eqn:Hct; simpl in H; [|discriminate].
  inversion H; subst; clear H.
  unfold open_repr, JSON_parse_call, read_member, decodeBuffer, subtle_decrypt.
  unfold bind at 1. unfold bind at 1. unfold emit at 1. rewrite Ho. unfold of_option at 1, ret at 1.
  unfold bind at 1. rewrite Hsf. unfold of_option at 1, ret at 1.
  unfold bind at 1. rewrite Hs. unfold of_option at 1, ret at 1.
  unfold bind at 1. rewrite Hivf. unfold of_option at 1, ret at 1.
  unfold bind at 1. rewrite Hiv. unfold of_option at 1, ret at 1.
  unfold bind at 1. rewrite Hcf. unfold of_option at 1, ret at 1.
  unfold bind at 1. rewrite Hct. unfold of_option at 1, ret at 1.
  unfold bind at 1. rewrite deriveKey_eq.
  unfold_async; unfold logged; simpl.
  destruct (AES_GCM_decrypt _ iv ct) as [pt|]; simpl.
  - rewrite <- !app_assoc; simpl.
    now destruct (JSON_parse (bufferToString pt)).
  - now rewrite <- !app_assoc.
Qed.

End Steps.

(** ** Engines and the password they were created for *)

Section Keyed.

Context {pf : Platform}.

Lemma keyed_by_constructor (password : string) (salt : bytes) :
  keyed_by password (constructor salt (derived_key password salt)).
Proof. exists salt. split; reflexivity. Qed.

Lemma keyed_by_with_vault (password : string) (k : Keychain) (v : gmap string string) :
  keyed_by password k -> keyed_by password (with_vault k v).
Proof. intros [salt [H1 H2]]. exists salt. split; assumption. Qed.

Lemma keyed_by_set (password : string) (k : Keychain) (name value : string) :
  keyed_by password k -> keyed_by password (set k name value).
Proof. apply keyed_by_with_vault. Qed.

Lemma keyed_by_remove (password : string) (k : Keychain) (name : string) :
  keyed_by password k -> keyed_by password (snd (remove k name)).
Proof.
  intros H. unfold remove. destruct (in_operator _ _); simpl; [|assumption].
  now apply keyed_by_with_vault.
Qed.

Lemma keyed_by_init (password : string) (w : World) :
  exists k, result (init password w) = Return k /\ keyed_by password k /\ secrets_vault k = ∅.
Proof.
  rewrite init_eq. eexists. split; [reflexivity|].
  split; [apply keyed_by_constructor | reflexivity].
Qed.

(** The key depends on the password through its HMAC key block only. *)
Lemma derived_key_block (p p' : string) (salt : bytes) :
  HMAC_key_block (stringToBuffer p') = HMAC_key_block (stringToBuffer p) ->
  derived_key p' salt = derived_key p salt.
Proof. unfold derived_key. now intros ->. Qed.

Lemma keyed_by_key_block (p p' : string) (k : Keychain) :
  HMAC_key_block (stringToBuffer p') = HMAC_key_block (stringToBuffer p) ->
  keyed_by p k -> keyed_by p' k.
Proof.
  intros H [salt [H1 H2]]. exists salt. split; [assumption|].
  now rewrite H2, (derived_key_block p p').
Qed.

(** A key shorter than the block and the same key followed by a zero byte
    have the same key block. *)
Lemma HMAC_key_block_zero (K : bytes) :
  length K < HMAC_BLOCK_SIZE ->
  HMAC_key_block (K ++ [Byte.x00]) = HMAC_key_block K.
Proof.
  unfold HMAC_key_block, HMAC_BLOCK_SIZE. intros H.
  rewrite !decide_False; [ | lia | rewrite length_app; simpl; lia ].
  rewrite length_app; simpl.
  replace (64 - length K) with (S (64 - (length K + 1))) by lia.
  simpl. now rewrite <- app_assoc.
Qed.

End Keyed.

(** ** Seal and open on a sound platform *)

Section Sound.

Context {pf : Platform} {sound : PlatformSound pf}.

Lemma checksum_accepted_own (repr : string) :
  checksum_accepted repr (Some (JStr (checksum_of repr))) = true.
Proof.
  unfold checksum_accepted; simpl.
  rewrite String.eqb_refl; simpl. apply orb_true_r.
Qed.

Lemma checksum_accepted_none (repr : string) : checksum_accepted repr None = true.
Proof. reflexivity. Qed.

(** What [load] reads from the serialised object [{salt, iv, ciphertext}]
    of three encoded byte strings. *)
Lemma sealed_fields_repr_object (salt iv ct : bytes) :
  sealed_fields
    (JSON_stringify (repr_object (encodeBuffer salt) (encodeBuffer iv) (encodeBuffer ct)))
  = Some (salt, iv, ct).
Proof.
  unfold sealed_fields.
  assert (JSON_parse
            (JSON_stringify
               (repr_object (encodeBuffer salt) (encodeBuffer iv) (encodeBuffer ct)))
          = Some (repr_object (encodeBuffer salt) (encodeBuffer iv) (encodeBuffer ct)))
    as -> by (unfold repr_object; apply JSON_parse_stringify).
  cbn [mbind option_bind].
  rewrite member_salt, member_iv, member_ciphertext.
  cbn [mbind option_bind].
  unfold encodeBuffer. rewrite !base64_decode_encode. reflexivity.
Qed.

Lemma sealed_fields_sealed_repr (k : Keychain) (w : World) (salt : bytes) :
  data_salt k = encodeBuffer salt ->
  sealed_fields (sealed_repr k w) = Some (salt, sealed_iv w, sealed_ciphertext k w).
Proof.
  intros Hs. unfold sealed_repr. rewrite Hs. apply sealed_fields_repr_object.
Qed.

Lemma carries_salt_sealed_repr (k : Keychain) (w : World) :
  carries_salt (data_salt k) (sealed_repr k w).
Proof.
  unfold carries_salt, sealed_repr. eexists. split.
  - unfold repr_object. apply JSON_parse_stringify.
  - apply member_salt.
Qed.

(** Opening what an engine sealed, with a password the engine is keyed by,
    gives the engine back. *)
Lemma open_sealed_repr (password : string) (k : Keychain) (w w' : World) :
  keyed_by password k ->
  result (open_repr password (sealed_repr k w) w') = Return (Engine k).
Proof.
  intros [salt [Hs Hk]].
  rewrite (open_repr_eq _ _ _ _ _ _ (sealed_fields_sealed_repr k w salt Hs)).
  rewrite <- Hk. unfold sealed_ciphertext.
  rewrite AES_GCM_decrypt_encrypt by apply tape_block_length.
  unfold result; simpl. unfold bufferToString, stringToBuffer.
  rewrite utf8_decode_encode, JSON_parse_stringify.
  unfold assign_vault. rewrite as_entries_string_object.
  unfold with_vault, constructor; simpl. rewrite <- Hs.
  now destruct k.
Qed.

End Sound.

(** ** The small platform is sound *)

Section MockSound.

Import Mock.

Lemma strip_prefix_app (p l : bytes) : strip_prefix p (p ++ l) = Some l.
Proof.
  induction p as [|a p IH]; cbn [strip_prefix app]; [reflexivity|].
  now rewrite decide_True.
Qed.

Lemma strip_prefix_frame (a b p l : bytes) :
  strip_prefix (frame a ++ p) (frame b ++ l) =
  if decide (a = b) then strip_prefix p l else None.
Proof.
  revert b. induction a as [|x a IH]; intros [|y b]; cbn [strip_prefix frame app].
  - now rewrite !decide_True by reflexivity.
  - now rewrite !decide_False by discriminate.
  - now rewrite !decide_False by discriminate.
  - rewrite (decide_True (P := Byte.x01 = Byte.x01)) by reflexivity.
    cbn [strip_prefix]. destruct (decide (x = y)) as [->|Hxy].
    + rewrite IH. destruct (decide (a = b)) as [->|Hab].
      * now rewrite decide_True.
      * rewrite decide_False; [reflexivity | congruence].
    + rewrite decide_False; [reflexivity | congruence].
Qed.

Lemma decrypt_encrypt (key : bytes * bytes) (iv data : bytes) :
  decrypt key iv (encrypt key iv data) = Some data.
Proof.
  unfold decrypt, encrypt. rewrite app_assoc. apply strip_prefix_app.
Qed.

Lemma decrypt_other_key (key key' : bytes * bytes) (iv data : bytes) :
  key' <> key -> decrypt key' iv (encrypt key iv data) = None.
Proof.
  destruct key as [b s], key' as [b' s']. intros Hne.
  unfold decrypt, encrypt, key_tag; simpl.
  rewrite <- !app_assoc, strip_prefix_frame.
  destruct (decide (b' = b)) as [->|]; [|reflexivity].
  rewrite strip_prefix_frame.
  destruct (decide (s' = s)) as [->|]; [|reflexivity].
  now destruct Hne.
Qed.

Lemma of_numeral_numeral (p : positive) : of_numeral (numeral p) = Some p.
Proof. induction p as [p IH|p IH|]; simpl; [now rewrite IH..|reflexivity]. Qed.

Lemma numeral_not_null (p : positive) : String.eqb (numeral p) "null" = false.
Proof. now destruct p. Qed.

Lemma numeral_not_oversized (p : positive) :
  String.eqb (numeral p) OVERSIZED_SALT = false.
Proof. now destruct p. Qed.

Lemma parse_stringify (m : gmap string string) :
  parse (stringify (string_object m)) = Some (string_object m).
Proof.
  unfold parse, stringify.
  rewrite as_entries_string_object, numeral_not_null, numeral_not_oversized.
  rewrite of_numeral_numeral; simpl. now rewrite decode_encode.
Qed.

Lemma from_base64_to_base64 (b : bytes) :
  from_base64 (Some (JStr (string_of_list_byte b))) = Some b.
Proof. simpl. now rewrite list_byte_of_string_of_list_byte. Qed.

Lemma platform_sound : PlatformSound Mock.platform.
Proof.
  split; simpl.
  - apply from_base64_to_base64.
  - apply parse_stringify.
  - intros j. apply string_of_list_byte_of_string.
  - intros key iv data _. apply decrypt_encrypt.
Qed.

Lemma engine_keyed : keyed_by (pf := Mock.platform) password engine.
Proof. apply keyed_by_set, keyed_by_constructor. Qed.

End MockSound.

(** ** Round trip *)

(** C1. For every password and every entries map: [dump] on an engine
    created for the password and holding the entries returns a
    representation and a checksum, and [load] of that representation under
    the same password, with the checksum or without one, returns an engine
    holding the same entries (the same engine). *)
Theorem dump_load_round_trip
  {pf : Platform} {sound : PlatformSound pf}
  (password : string) (entries : gmap string string) (k : Keychain) (w w' : World) :
  keyed_by password k ->
  secrets_vault k = entries ->
  exists repr checksum : string,
    result (dump k w) = Return (repr, checksum) /\
    (exists k', result (load password repr (Some (JStr checksum)) w') = Return (Engine k')
                /\ secrets_vault k' = entries) /\
    (exists k', result (load password repr None w') = Return (Engine k')
                /\ secrets_vault k' = entries).
Proof.
  intros Hk HE. exists (sealed_repr k w), (checksum_of (sealed_repr k w)).
  split; [now rewrite dump_eq|].
  split; exists k; (split; [|assumption]).
  - rewrite load_accepted by apply checksum_accepted_own.
    now apply open_sealed_repr.
  - rewrite load_accepted by reflexivity.
    now apply open_sealed_repr.
Qed.

(** ** What [load] throws, and which calls it makes *)

Section Load.

Context {pf : Platform}.

Lemma strict_neq_false (a : string) (b : option json) :
  strict_neq a b = false <-> b = Some (JStr a).
Proof.
  unfold strict_neq. split.
  - destruct b as [[| | |s| |]|]; try discriminate.
    intros H%negb_false_iff%String.eqb_eq. now subst.
  - intros ->. now rewrite String.eqb_refl.
Qed.

Ltac open_cases :=
  unfold open_repr, JSON_parse_call, read_member, decodeBuffer, deriveKey,
    subtle_importKey, subtle_deriveKey, subtle_decrypt;
  unfold_async; cbn [fst snd];
  repeat match goal with
    | |- context [JSON_parse ?s] => destruct (JSON_parse s); cbn [fst snd]
    | |- context [member ?o ?n] => destruct (member o n); cbn [fst snd]
    | |- context [Buffer_from_base64 ?x] => destruct (Buffer_from_base64 x); cbn [fst snd]
    | |- context [AES_GCM_decrypt ?k ?i ?c] => destruct (AES_GCM_decrypt k i c); cbn [fst snd]
    end.

(** The only exceptions out of lines 83 to 109 of [load]. *)
Lemma open_repr_throws (password repr : string) (w : World) (e : Exn) :
  result (open_repr password repr w) = Throw e ->
  e = SyntaxError \/ e = TypeError \/ e = RangeError \/ e = Error DECRYPT_MESSAGE.
Proof.
  open_cases; intros H; inversion H; auto;
    match goal with
    | |- context [fault_error ?f] => destruct f; cbn [fault_error]; auto
    end.
Qed.

Lemma open_repr_not_integrity (password repr : string) (w : World) :
  result (open_repr password repr w) <> Throw (Error INTEGRITY_MESSAGE).
Proof.
  intros H. apply open_repr_throws in H as [H|[H|[H|H]]]; discriminate.
Qed.

(** Lines 83 to 109 of [load] start by parsing the representation, and
    compute no digest. *)
Lemma open_repr_calls (password repr : string) (w : World) :
  exists evs : list Event,
    calls (after (open_repr password repr w)) = (calls w ++ CallParse :: evs)%list /\
    CallDigest ∉ evs.
Proof.
  open_cases; cbn [calls]; rewrite <- ?app_assoc; cbn [app];
    (eexists; split; [reflexivity|]);
    rewrite ?elem_of_cons, elem_of_nil; intuition discriminate.
Qed.

(** An engine that [load] returns is keyed by the password given to it. *)
Lemma keyed_by_load (password repr : string) (t : option json) (w : World)
  (k : Keychain) :
  result (load password repr t w) = Return (Engine k) -> keyed_by password k.
Proof.
  unfold load. unfold bind at 1. rewrite verify_checksum_eq.
  assert (forall w', result (open_repr password repr w') = Return (Engine k) ->
                     keyed_by password k) as Hopen.
  { intros w'. open_cases; intros H; inversion H as [E]; clear H.
    unfold assign_vault in E. destruct (as_entries _); inversion E; subst.
    apply keyed_by_with_vault. eexists. split; reflexivity. }
  destruct (truthy t); [|apply Hopen].
  destruct (strict_neq _ t); [discriminate | apply Hopen].
Qed.

End Load.

(** ** Plaintext that does not parse *)

(** C2, amended. For every password and representation whose checksum is
    accepted and whose fields [load] reads: when authenticated decryption
    succeeds and the plaintext is not JSON, [load] throws the SyntaxError of
    [JSON.parse] (the parse is outside the try/catch), not the decryption
    error; when the plaintext is JSON but not an entries map, [load] returns
    a keychain holding that value. *)
Theorem load_unparsable_plaintext
  {pf : Platform} (password repr : string) (t : option json) (w : World)
  (salt iv ct plaintext : bytes) :
  checksum_accepted repr t = true ->
  sealed_fields repr = Some (salt, iv, ct) ->
  AES_GCM_decrypt (derived_key password salt) iv ct = Some plaintext ->
  (JSON_parse (bufferToString plaintext) = None ->
   result (load password repr t w) = Throw SyntaxError) /\
  (forall vault : json,
     JSON_parse (bufferToString plaintext) = Some vault ->
     as_entries vault = None ->
     result (load password repr t w) =
     Return (Foreign (constructor salt (derived_key password salt)) vault)).
Proof.
  intros Hc Hf Hd.
  rewrite (load_accepted _ _ _ _ Hc), (open_repr_eq _ _ _ _ _ _ Hf), Hd.
  unfold result; simpl. split.
  - now intros ->.
  - intros vault -> Hv. unfold assign_vault. now rewrite Hv.
Qed.

(** ** The integrity check *)

(** C3, amended. For every password, representation and truthy (for a
    string: non-empty) expected checksum that is not the SHA-256 digest of
    the representation, [load] throws the integrity error after the digest
    and before any parsing, key derivation or decryption; and [load] of a
    representation with the checksum that [dump] returned with it never
    throws the integrity error. *)
Theorem load_checksum_mismatch
  {pf : Platform} (password repr : string) (w : World) :
  (forall t : option json,
     truthy t = true ->
     t <> Some (JStr (checksum_of repr)) ->
     load password repr t w = (Throw (Error INTEGRITY_MESSAGE), logged w [CallDigest])) /\
  (forall (k : Keychain) (w0 : World) (checksum : string),
     result (dump k w0) = Return (repr, checksum) ->
     result (load password repr (Some (JStr checksum)) w)
     <> Throw (Error INTEGRITY_MESSAGE)).
Proof.
  split.
  - intros t Ht Hne. unfold load. unfold bind at 1.
    rewrite verify_checksum_eq, Ht.
    destruct (strict_neq (checksum_of repr) t) eqn:E; [reflexivity|].
    now apply strict_neq_false in E.
  - intros k w0 checksum. rewrite dump_eq. unfold result; simpl.
    intros H; inversion H; subst; clear H.
    rewrite load_accepted by apply checksum_accepted_own.
    apply open_repr_not_integrity.
Qed.

(** C10. For every password and representation: when the expected checksum
    is falsy (the empty string, [undefined], [null], [false], 0), [load]
    does what it does without a checksum; it goes straight to parsing the
    representation, computes no digest and does not throw the integrity
    error. *)
Theorem load_falsy_checksum
  {pf : Platform} (password repr : string) (t : option json) (w : World) :
  truthy t = false ->
  load password repr t w = load password repr None w /\
  load password repr t w = open_repr password repr w /\
  result (load password repr t w) <> Throw (Error INTEGRITY_MESSAGE) /\
  exists evs : list Event,
    calls (after (load password repr t w)) = (calls w ++ CallParse :: evs)%list /\
    CallDigest ∉ evs.
Proof.
  intros Ht.
  assert (load password repr t w = open_repr password repr w) as ->.
  { unfold load, verify_checksum. now rewrite Ht. }
  repeat split.
  - apply open_repr_not_integrity.
  - apply open_repr_calls.
Qed.

(** ** Another password *)

(** C4, amended. For every representation that [dump] returns for an engine
    created for a password: [load] under any password, when AES-GCM does
    not authenticate the ciphertext of the representation under the key
    derived from that password and the salt of the representation, throws
    the decryption error, with the checksum of [dump] or with none; it
    returns no engine and throws no other exception, and it stops at the
    decryption, before any parse of a plaintext. *)
Theorem load_other_key
  {pf : Platform} {sound : PlatformSound pf}
  (password password' : string) (salt : bytes) (k : Keychain) (w w' : World)
  (repr checksum : string) (t : option json) :
  data_salt k = encodeBuffer salt ->
  secrets_encKey k = derived_key password salt ->
  result (dump k w) = Return (repr, checksum) ->
  AES_GCM_decrypt (derived_key password' salt) (sealed_iv w) (sealed_ciphertext k w)
  = None ->
  t = None \/ t = Some (JStr checksum) ->
  result (load password' repr t w') = Throw (Error DECRYPT_MESSAGE) /\
  calls (after (load password' repr t w')) =
  (calls w' ++ (if truthy t then [CallDigest] else [])
     ++ [CallParse; CallImportKey; CallDeriveKey; CallDecrypt])%list.
Proof.
  intros Hs Hk. rewrite dump_eq. unfold result at 1; simpl.
  intros H Hrej Ht; inversion H; subst repr checksum; clear H.
  rewrite load_accepted
    by (destruct Ht as [->| ->]; [reflexivity | apply checksum_accepted_own]).
  rewrite (open_repr_eq _ _ _ _ _ _ (sealed_fields_sealed_repr k w salt Hs)).
  rewrite Hrej. split; [reflexivity|].
  unfold after, logged; cbn [snd calls].
  destruct (truthy t); cbn [calls app]; [now rewrite <- app_assoc | reflexivity].
Qed.

(** ** The salt of an engine *)

Section Salt.

Context {pf : Platform} {sound : PlatformSound pf}.

Lemma data_salt_set (k : Keychain) (name value : string) :
  data_salt (set k name value) = data_salt k.
Proof. reflexivity. Qed.

Lemma data_salt_remove (k : Keychain) (name : string) :
  data_salt (snd (remove k name)) = data_salt k.
Proof. unfold remove. now destruct (in_operator _ _). Qed.

(** Whatever the calls, the engine keeps its salt, every representation
    returned by [dump] carries it, and no 16 bytes are drawn. *)
Lemma session_keeps_salt (ops : list Op) :
  forall (k : Keychain) (w : World),
  exists (k' : Keychain) (dumps : list (string * string)) (w' : World) (evs : list Event),
    session ops k w = (Return (k', dumps), w') /\
    data_salt k' = data_salt k /\
    Forall (fun d => carries_salt (data_salt k) (fst d)) dumps /\
    calls w' = (calls w ++ evs)%list /\
    CallRandom 16 ∉ evs.
Proof.
  induction ops as [|op ops IH]; intros k w.
  - exists k, [], w, [].
    split; [reflexivity|]. split; [reflexivity|]. split; [constructor|].
    split; [now rewrite app_nil_r | apply not_elem_of_nil].
  - destruct op as [name|name value|name|]; cbn [session].
    + apply IH.
    + destruct (IH (set k name value) w) as (k' & dumps & w' & evs & H1 & H2 & H3 & H4 & H5).
      exists k', dumps, w', evs. now rewrite data_salt_set in *.
    + destruct (IH (snd (remove k name)) w) as (k' & dumps & w' & evs & H1 & H2 & H3 & H4 & H5).
      exists k', dumps, w', evs. now rewrite data_salt_remove in *.
    + destruct (IH k (logged (advanced w 12) [CallRandom 12; CallEncrypt; CallDigest]))
        as (k' & dumps & w' & evs & H1 & H2 & H3 & H4 & H5).
      exists k', ((sealed_repr k w, checksum_of (sealed_repr k w)) :: dumps), w',
        ([CallRandom 12; CallEncrypt; CallDigest] ++ evs)%list.
      split; [|split; [assumption|split; [|split]]].
      * unfold bind at 1. rewrite dump_eq. unfold bind at 1. now rewrite H1.
      * constructor; [apply carries_salt_sealed_repr | assumption].
      * rewrite H4. cbn [logged advanced calls]. now rewrite <- app_assoc.
      * rewrite elem_of_app, !elem_of_cons, elem_of_nil. intuition discriminate.
Qed.

End Salt.

(** C8. The salt of an engine created by [init] is the 16 bytes that [init]
    drew from the random source, in the one draw of 16 bytes that is ever
    made for the engine; whatever calls of [get], [set], [remove] and [dump]
    follow, the engine keeps that salt, and every representation that
    [dump] returns carries it (it decodes to the 16 bytes). *)
Theorem salt_generated_once_and_kept
  {pf : Platform} {sound : PlatformSound pf}
  (password : string) (w : World) (ops : list Op) :
  let salt := tape_block (entropy w) (drawn w) 16 in
  exists (k : Keychain) (w1 : World),
    init password w = (Return k, w1) /\
    length salt = 16 /\
    data_salt k = encodeBuffer salt /\
    Buffer_from_base64 (Some (JStr (data_salt k))) = Some salt /\
    calls w1 = (calls w ++ [CallRandom 16; CallImportKey; CallDeriveKey])%list /\
    exists (k' : Keychain) (dumps : list (string * string)) (w2 : World) (evs : list Event),
      session ops k w1 = (Return (k', dumps), w2) /\
      data_salt k' = data_salt k /\
      Forall (fun d => carries_salt (data_salt k) (fst d)) dumps /\
      calls w2 = (calls w1 ++ evs)%list /\
      CallRandom 16 ∉ evs.
Proof.
  intros salt. rewrite init_eq. eexists _, _. split; [reflexivity|].
  split; [apply tape_block_length|].
  split; [reflexivity|].
  split; [apply base64_decode_encode|].
  split; [reflexivity|].
  apply session_keeps_salt.
Qed.

(** ** Passwords that [init] is given *)

(** C9, amended. [init] checks nothing about the password: for every
    password, the empty one included, it draws 16 bytes as the salt,
    derives the key from the password and that salt, and returns an engine
    with no entries, keyed by that password; it throws nothing.  The check
    is in the handler of [POST /init]: to a body whose password is missing
    or empty it answers 400 and calls nothing; to a request with no body at
    all it answers 500, the TypeError of the destructuring; to any other
    password it makes the engine that [init] returns the active keychain
    and answers 201 with the representation and the checksum that [dump]
    returns for that engine, which [load] opens under the password to that
    engine. *)
Theorem init_accepts_every_password
  {pf : Platform} (w : World) (activeKeychain : option Keychain) :
  let salt := tape_block (entropy w) (drawn w) 16 in
  let wi := logged (advanced w 16) [CallRandom 16; CallImportKey; CallDeriveKey] in
  let wo := logged (advanced wi 12) [CallRandom 12; CallEncrypt; CallDigest] in
  (forall password : string,
     let k := constructor salt (derived_key password salt) in
     init password w = (Return k, wi) /\
     length salt = 16 /\
     secrets_vault k = ∅ /\
     keyed_by password k) /\
  (forall password : option string,
     not_password password = true ->
     request_init (Some password) activeKeychain w =
     (Return ({| status := 400; body := Rejected "Password is required" |},
              activeKeychain), w)) /\
  request_init None activeKeychain w =
  (Return ({| status := 500; body := Failed TypeError |}, activeKeychain), w) /\
  (forall password : string,
     not_password (Some password) = false ->
     let k := constructor salt (derived_key password salt) in
     let repr := sealed_repr k wi in
     let checksum := checksum_of repr in
     dump k wi = (Return (repr, checksum), wo) /\
     request_init (Some (Some password)) activeKeychain w =
     (Return ({| status := 201; body := Sealed repr checksum |}, Some k), wo) /\
     (PlatformSound pf ->
      forall w' : World,
        result (load password repr (Some (JStr checksum)) w') = Return (Engine k))).
Proof.
  intros salt wi wo. split; [|split; [|split]].
  - intros password k. split; [apply init_eq|].
    split; [apply tape_block_length|].
    split; [reflexivity | apply keyed_by_constructor].
  - intros [p|] H; unfold request_init, destructure, of_option;
      unfold try_catch at 1; unfold bind at 1; unfold ret at 1;
      cbn [post_init]; [now rewrite H | reflexivity].
  - reflexivity.
  - intros password H k repr checksum.
    split; [apply dump_eq|]. split.
    + unfold request_init, destructure, of_option.
      unfold try_catch at 1. unfold bind at 1. unfold ret at 1.
      cbn [post_init]. rewrite H.
      unfold try_catch at 1. unfold bind at 1. rewrite init_eq.
      unfold try_catch at 1. unfold bind at 1. now rewrite dump_eq.
    + intros sound w'.
      rewrite load_accepted by apply checksum_accepted_own.
      apply open_sealed_repr, keyed_by_constructor.
Qed.

(** ** Reading and deleting entries *)

Section Entries.

Context {pf : Platform}.

Lemma get_stored (k : Keychain) (name s : string) :
  secrets_vault k !! name = Some s -> s <> EmptyString -> get k name = VString s.
Proof.
  intros H Hs. unfold get, property, or_null. rewrite H; simpl.
  destruct (String.eqb_spec s EmptyString); [contradiction | reflexivity].
Qed.

Lemma get_missing (k : Keychain) (name : string) :
  secrets_vault k !! name = None -> name ∉ Object_prototype -> get k name = VNull.
Proof.
  intros H Hn. unfold get, property, or_null. rewrite H.
  now rewrite bool_decide_eq_false_2.
Qed.

Lemma get_inherited (k : Keychain) (name : string) :
  secrets_vault k !! name = None -> name ∈ Object_prototype -> get k name = VBuiltin name.
Proof.
  intros H Hn. unfold get, property, or_null. rewrite H.
  now rewrite bool_decide_eq_true_2.
Qed.

Lemma remove_stored (k : Keychain) (name : string) :
  is_Some (secrets_vault k !! name) ->
  remove k name = (true, with_vault k (delete name (secrets_vault k))) /\
  secrets_vault (snd (remove k name)) !! name = None.
Proof.
  intros H. unfold remove, in_operator.
  rewrite bool_decide_eq_true_2 by assumption. simpl.
  split; [reflexivity | apply lookup_delete_eq].
Qed.

Lemma remove_missing (k : Keychain) (name : string) :
  secrets_vault k !! name = None -> name ∉ Object_prototype -> remove k name = (false, k).
Proof.
  intros H Hn. unfold remove, in_operator.
  rewrite !bool_decide_eq_false_2; [reflexivity | assumption |].
  rewrite H. now intros [? ?].
Qed.

Lemma remove_inherited (k : Keychain) (name : string) :
  secrets_vault k !! name = None -> name ∈ Object_prototype -> remove k name = (true, k).
Proof.
  intros H Hn. unfold remove, in_operator.
  rewrite (bool_decide_eq_true_2 (name ∈ Object_prototype)) by assumption.
  rewrite orb_true_r, delete_id by assumption. now destruct k.
Qed.

End Entries.

(** C5, at the inputs where the code departs from it. An entry stored with
    the empty string as its value is present in the entries map, and [get]
    returns [null], which is its not-found result; and on an engine with no
    entries, [get] of the name [toString], which is absent, returns the
    function that the vault inherits under that name, not [null]. *)
Theorem get_empty_secret
  {pf : Platform} (k : Keychain) (salt : bytes) (encKey : CryptoKey) :
  (secrets_vault (set k "github.com" EmptyString) !! "github.com" = Some EmptyString /\
   get (set k "github.com" EmptyString) "github.com" = VNull) /\
  (secrets_vault (constructor salt encKey) !! "toString" = None /\
   get (constructor salt encKey) "toString" = VBuiltin "toString").
Proof.
  split.
  - assert (secrets_vault (set k "github.com" EmptyString) !! "github.com"
            = Some EmptyString) as H.
    { unfold set, assign; cbn [secrets_vault with_vault].
      rewrite bool_decide_eq_false_2 by (intros [? _]; discriminate).
      apply lookup_insert_eq. }
    split; [assumption|].
    unfold get, property. now rewrite H.
  - split; [apply lookup_empty|].
    apply get_inherited; [apply lookup_empty|].
    unfold Object_prototype. rewrite !elem_of_cons. tauto.
Qed.

(** C6, at the input where the code departs from it. On an engine with no
    entries, [remove] of the name [toString], which is not present,
    reports [true]; the engine is unchanged. *)
Theorem remove_inherited_name
  {pf : Platform} (salt : bytes) (encKey : CryptoKey) :
  secrets_vault (constructor salt encKey) !! "toString" = None /\
  remove (constructor salt encKey) "toString" = (true, constructor salt encKey).
Proof.
  split; [apply lookup_empty|].
  apply remove_inherited; [apply lookup_empty|].
  unfold Object_prototype. rewrite !elem_of_cons. tauto.
Qed.

(** ** Passwords with the same key block, and consecutive seals *)

Section Further.

Context {pf : Platform} {sound : PlatformSound pf}.

(** A password and the same password followed by the character of code 0
    (one more zero byte in UTF-8) open the same vaults. *)
Lemma zero_padded_password_opens
  (password password' : string) (k : Keychain) (w w' : World) :
  keyed_by password k ->
  stringToBuffer password' = (stringToBuffer password ++ [Byte.x00])%list ->
  length (stringToBuffer password) < HMAC_BLOCK_SIZE ->
  result (load password' (sealed_repr k w) None w') = Return (Engine k).
Proof.
  intros Hk He Hl. rewrite load_accepted by reflexivity.
  apply open_sealed_repr. apply (keyed_by_key_block password); [|assumption].
  rewrite He. now apply HMAC_key_block_zero.
Qed.

(** Two consecutive calls of [dump] on an unchanged engine take their ivs
    from consecutive blocks of 12 bytes of the random source; when the two
    blocks differ so do the representations; both open to the engine. *)
Lemma consecutive_dumps (password : string) (k : Keychain) (w w' : World) :
  keyed_by password k ->
  let w1 := after (dump k w) in
  let iv1 := tape_block (entropy w) (drawn w) 12 in
  let iv2 := tape_block (entropy w) (drawn w + 12) 12 in
  exists (salt : bytes) (r1 c1 r2 c2 : string) (ct1 ct2 : bytes),
    result (dump k w) = Return (r1, c1) /\
    result (dump k w1) = Return (r2, c2) /\
    sealed_fields r1 = Some (salt, iv1, ct1) /\
    sealed_fields r2 = Some (salt, iv2, ct2) /\
    (iv1 <> iv2 -> r1 <> r2) /\
    result (load password r1 None w') = Return (Engine k) /\
    result (load password r2 None w') = Return (Engine k).
Proof.
  intros Hk w1 iv1 iv2. destruct Hk as [salt [Hs Hkey]].
  assert (keyed_by password k) as Hk by (exists salt; now split).
  subst w1. rewrite !dump_eq. unfold after, result; cbn [fst snd].
  exists salt. eexists _, _, _, _, _, _.
  split; [reflexivity|]. split; [reflexivity|].
  split; [now apply sealed_fields_sealed_repr|].
  split; [now apply sealed_fields_sealed_repr|].
  split.
  - intros Hne Heq.
    pose proof (sealed_fields_sealed_repr k w salt Hs) as H1.
    rewrite Heq, (sealed_fields_sealed_repr k _ salt Hs) in H1.
    assert (sealed_iv (logged (advanced w 12) [CallRandom 12; CallEncrypt; CallDigest])
            = sealed_iv w) as Hiv by congruence.
    apply Hne. symmetry. exact Hiv.
  - split; (rewrite load_accepted by reflexivity; now apply open_sealed_repr).
Qed.

End Further.

(** ** Runs on the small platform *)

Section Runs.

#[local] Existing Instance Mock.platform.
#[local] Existing Instance platform_sound.

Lemma dump_load_round_trip_witness :
  keyed_by (pf := Mock.platform) Mock.password Mock.engine /\
  secrets_vault Mock.engine = {[ "github.com" := "s3cr3t" ]} /\
  exists repr checksum : string,
    result (dump Mock.engine Mock.world) = Return (repr, checksum) /\
    (exists k', result (load Mock.password repr (Some (JStr checksum)) Mock.world)
                = Return (Engine k')
                /\ secrets_vault k' = {[ "github.com" := "s3cr3t" ]}) /\
    (exists k', result (load Mock.password repr None Mock.world) = Return (Engine k')
                /\ secrets_vault k' = {[ "github.com" := "s3cr3t" ]}).
Proof.
  split; [apply engine_keyed|]. split; [reflexivity|].
  apply (dump_load_round_trip (pf := Mock.platform) (sound := platform_sound)
           Mock.password {[ "github.com" := "s3cr3t" ]} Mock.engine Mock.world Mock.world).
  - apply engine_keyed.
  - reflexivity.
Defined.

Lemma sealed_fields_not_json :
  sealed_fields Mock.repr_of_not_json
  = Some (Mock.salt, Mock.iv, Mock.ciphertext_of_not_json).
Proof. apply sealed_fields_repr_object. Qed.

Lemma sealed_fields_null :
  sealed_fields Mock.repr_of_null = Some (Mock.salt, Mock.iv, Mock.ciphertext_of_null).
Proof. apply sealed_fields_repr_object. Qed.

Lemma decrypt_not_json :
  AES_GCM_decrypt (derived_key Mock.password Mock.salt) Mock.iv
    Mock.ciphertext_of_not_json = Some Mock.not_json.
Proof. apply decrypt_encrypt. Qed.

Lemma not_json_does_not_parse : JSON_parse (bufferToString Mock.not_json) = None.
Proof. reflexivity. Qed.

Lemma decrypt_null :
  AES_GCM_decrypt (derived_key Mock.password Mock.salt) Mock.iv Mock.ciphertext_of_null
  = Some (stringToBuffer "null").
Proof. apply decrypt_encrypt. Qed.

Lemma load_unparsable_plaintext_witness :
  (checksum_accepted Mock.repr_of_not_json None = true /\
   sealed_fields Mock.repr_of_not_json
   = Some (Mock.salt, Mock.iv, Mock.ciphertext_of_not_json) /\
   AES_GCM_decrypt (derived_key Mock.password Mock.salt) Mock.iv
     Mock.ciphertext_of_not_json = Some Mock.not_json /\
   JSON_parse (bufferToString Mock.not_json) = None /\
   result (load Mock.password Mock.repr_of_not_json None Mock.world)
   = Throw SyntaxError) /\
  (sealed_fields Mock.repr_of_null
   = Some (Mock.salt, Mock.iv, Mock.ciphertext_of_null) /\
   AES_GCM_decrypt (derived_key Mock.password Mock.salt) Mock.iv
     Mock.ciphertext_of_null = Some (stringToBuffer "null") /\
   JSON_parse (bufferToString (stringToBuffer "null")) = Some JNull /\
   as_entries JNull = None /\
   result (load Mock.password Mock.repr_of_null None Mock.world)
   = Return (Foreign (constructor Mock.salt (derived_key Mock.password Mock.salt))
               JNull)).
Proof.
  split.
  - split; [reflexivity|].
    split; [apply sealed_fields_not_json|].
    split; [apply decrypt_not_json|].
    split; [apply not_json_does_not_parse|].
    apply (load_unparsable_plaintext Mock.password Mock.repr_of_not_json None
             Mock.world Mock.salt Mock.iv Mock.ciphertext_of_not_json Mock.not_json).
    + reflexivity.
    + apply sealed_fields_not_json.
    + apply decrypt_not_json.
    + apply not_json_does_not_parse.
  - split; [apply sealed_fields_null|].
    split; [apply decrypt_null|].
    split; [reflexivity|]. split; [reflexivity|].
    apply (load_unparsable_plaintext Mock.password Mock.repr_of_null None
             Mock.world Mock.salt Mock.iv Mock.ciphertext_of_null
             (stringToBuffer "null")).
    + reflexivity.
    + apply sealed_fields_null.
    + apply decrypt_null.
    + reflexivity.
    + reflexivity.
Defined.

(** Against C2 as the specification states it: authenticated decryption
    succeeds, the plaintext is not JSON, and [load] throws the SyntaxError
    of [JSON.parse], which is not the decryption error. *)
Lemma load_not_json_plaintext_throws_syntax_error :
  AES_GCM_decrypt (derived_key Mock.password Mock.salt) Mock.iv
    Mock.ciphertext_of_not_json = Some Mock.not_json /\
  JSON_parse (bufferToString Mock.not_json) = None /\
  result (load Mock.password Mock.repr_of_not_json None Mock.world) = Throw SyntaxError /\
  result (load Mock.password Mock.repr_of_not_json None Mock.world)
  <> Throw (Error DECRYPT_MESSAGE).
Proof.
  split; [apply decrypt_not_json|].
  split; [apply not_json_does_not_parse|].
  assert (result (load Mock.password Mock.repr_of_not_json None Mock.world)
          = Throw SyntaxError) as ->.
  { rewrite load_accepted by reflexivity.
    rewrite (open_repr_eq _ _ _ _ _ _ sealed_fields_not_json), decrypt_not_json.
    reflexivity. }
  split; [reflexivity | discriminate].
Qed.

Lemma dump_engine :
  result (dump Mock.engine Mock.world)
  = Return (sealed_repr Mock.engine Mock.world,
            checksum_of (sealed_repr Mock.engine Mock.world)).
Proof. now rewrite dump_eq. Qed.

(** On the small platform a checksum is one character long. *)
Lemma checksum_length (repr : string) : String.length (checksum_of repr) = 1.
Proof. reflexivity. Qed.

Lemma checksum_differs (s repr : string) :
  String.length s <> 1 -> Some (JStr s) <> Some (JStr (checksum_of repr)).
Proof.
  intros Hs H. apply Hs.
  assert (s = checksum_of repr) as -> by congruence.
  apply checksum_length.
Qed.

Lemma stale_checksum_differs :
  Some (JStr "stale") <> Some (JStr (checksum_of (sealed_repr Mock.engine Mock.world))).
Proof. apply checksum_differs. discriminate. Qed.

Lemma load_checksum_mismatch_witness :
  truthy (Some (JStr "stale")) = true /\
  Some (JStr "stale") <> Some (JStr (checksum_of (sealed_repr Mock.engine Mock.world))) /\
  load Mock.password (sealed_repr Mock.engine Mock.world) (Some (JStr "stale")) Mock.world
  = (Throw (Error INTEGRITY_MESSAGE), logged Mock.world [CallDigest]) /\
  result (dump Mock.engine Mock.world)
  = Return (sealed_repr Mock.engine Mock.world,
            checksum_of (sealed_repr Mock.engine Mock.world)) /\
  result (load Mock.password (sealed_repr Mock.engine Mock.world)
            (Some (JStr (checksum_of (sealed_repr Mock.engine Mock.world)))) Mock.world)
  <> Throw (Error INTEGRITY_MESSAGE).
Proof.
  split; [reflexivity|].
  split; [apply stale_checksum_differs|].
  split; [|split; [apply dump_engine|]].
  - apply (proj1 (load_checksum_mismatch Mock.password
                    (sealed_repr Mock.engine Mock.world) Mock.world)).
    + reflexivity.
    + apply stale_checksum_differs.
  - apply (proj2 (load_checksum_mismatch Mock.password
                    (sealed_repr Mock.engine Mock.world) Mock.world)
             Mock.engine Mock.world).
    apply dump_engine.
Defined.

(** Against C3 as the specification states it: the empty string is given
    as the expected checksum, it is not the checksum of the representation,
    and [load] throws no integrity error: it opens the vault. *)
Lemma load_empty_checksum_opens :
  Some (JStr EmptyString)
  <> Some (JStr (checksum_of (sealed_repr Mock.engine Mock.world))) /\
  result (load Mock.password (sealed_repr Mock.engine Mock.world)
            (Some (JStr EmptyString)) Mock.world)
  = Return (Engine Mock.engine).
Proof.
  split.
  - apply checksum_differs. discriminate.
  - rewrite load_accepted by reflexivity.
    apply open_sealed_repr, engine_keyed.
Qed.

Lemma wrong_password_key_differs :
  derived_key "wrong password" Mock.salt <> derived_key Mock.password Mock.salt.
Proof. intros H. apply (f_equal fst) in H. vm_compute in H. discriminate. Qed.

Lemma wrong_password_rejected :
  AES_GCM_decrypt (derived_key "wrong password" Mock.salt) (sealed_iv Mock.world)
    (sealed_ciphertext Mock.engine Mock.world)
  = None.
Proof. apply decrypt_other_key, wrong_password_key_differs. Qed.

Lemma load_other_key_witness :
  data_salt Mock.engine = encodeBuffer Mock.salt /\
  secrets_encKey Mock.engine = derived_key Mock.password Mock.salt /\
  result (dump Mock.engine Mock.world)
  = Return (sealed_repr Mock.engine Mock.world,
            checksum_of (sealed_repr Mock.engine Mock.world)) /\
  AES_GCM_decrypt (derived_key "wrong password" Mock.salt) (sealed_iv Mock.world)
    (sealed_ciphertext Mock.engine Mock.world)
  = None /\
  result (load "wrong password" (sealed_repr Mock.engine Mock.world) None Mock.world)
  = Throw (Error DECRYPT_MESSAGE) /\
  calls (after (load "wrong password" (sealed_repr Mock.engine Mock.world) None
                  Mock.world))
  = [CallParse; CallImportKey; CallDeriveKey; CallDecrypt].
Proof.
  split; [reflexivity|]. split; [reflexivity|].
  split; [apply dump_engine|].
  split; [apply wrong_password_rejected|].
  apply (load_other_key (sound := platform_sound) Mock.password "wrong password"
           Mock.salt Mock.engine
           Mock.world Mock.world (sealed_repr Mock.engine Mock.world)
           (checksum_of (sealed_repr Mock.engine Mock.world)) None).
  - reflexivity.
  - reflexivity.
  - apply dump_engine.
  - apply wrong_password_rejected.
  - now left.
Defined.

(** Against C4 as the specification states it: the password followed by
    the character of code 0 is another password, and [load] under it opens
    the vault sealed under the password, with its entries. *)
Lemma load_zero_padded_password_opens :
  (forall (pf : Platform) (K : bytes),
     length K < HMAC_BLOCK_SIZE ->
     HMAC_key_block (K ++ [Byte.x00]) = HMAC_key_block K) /\
  Mock.password_nul <> Mock.password /\
  stringToBuffer Mock.password_nul
  = (stringToBuffer Mock.password ++ [Byte.x00])%list /\
  keyed_by Mock.password Mock.engine /\
  result (dump Mock.engine Mock.world)
  = Return (sealed_repr Mock.engine Mock.world,
            checksum_of (sealed_repr Mock.engine Mock.world)) /\
  result (load Mock.password_nul (sealed_repr Mock.engine Mock.world) None Mock.world)
  = Return (Engine Mock.engine) /\
  get Mock.engine "github.com" = VString "s3cr3t".
Proof.
  split; [intros pf K; apply HMAC_key_block_zero|].
  split; [discriminate|].
  split; [reflexivity|].
  split; [apply engine_keyed|].
  split; [apply dump_engine|].
  split; [|reflexivity].
  apply (zero_padded_password_opens Mock.password).
  - apply engine_keyed.
  - reflexivity.
  - vm_compute. lia.
Qed.

Lemma salt_generated_once_and_kept_witness :
  PlatformSound Mock.platform /\
  exists (k k' : Keychain) (dumps : list (string * string)) (w1 w2 : World),
    init Mock.password Mock.world = (Return k, w1) /\
    data_salt k = encodeBuffer Mock.salt /\
    session [OpSet "github.com" "s3cr3t"; OpDump; OpRemove "github.com"; OpDump] k w1
    = (Return (k', dumps), w2) /\
    data_salt k' = data_salt k /\
    Forall (fun d => carries_salt (data_salt k) (fst d)) dumps.
Proof.
  split; [exact platform_sound|].
  destruct (salt_generated_once_and_kept (sound := platform_sound) Mock.password
              Mock.world
              [OpSet "github.com" "s3cr3t"; OpDump; OpRemove "github.com"; OpDump])
    as (k & w1 & H1 & _ & H2 & _ & _ & k' & dumps & w2 & evs & H3 & H4 & H5 & _).
  exists k, k', dumps, w1, w2. repeat split; assumption.
Defined.

Lemma init_accepts_every_password_witness :
  let k := constructor Mock.salt (derived_key Mock.password Mock.salt) in
  let wi :=
    logged (advanced Mock.world 16) [CallRandom 16; CallImportKey; CallDeriveKey] in
  let wo := logged (advanced wi 12) [CallRandom 12; CallEncrypt; CallDigest] in
  not_password (Some EmptyString) = true /\
  request_init (Some (Some EmptyString)) None Mock.world
  = (Return ({| status := 400; body := Rejected "Password is required" |}, None),
     Mock.world) /\
  request_init None None Mock.world
  = (Return ({| status := 500; body := Failed TypeError |}, None), Mock.world) /\
  not_password (Some Mock.password) = false /\
  init Mock.password Mock.world = (Return k, wi) /\
  request_init (Some (Some Mock.password)) None Mock.world
  = (Return ({| status := 201;
                body := Sealed (sealed_repr k wi) (checksum_of (sealed_repr k wi)) |},
             Some k), wo) /\
  result (load Mock.password (sealed_repr k wi)
            (Some (JStr (checksum_of (sealed_repr k wi)))) Mock.world)
  = Return (Engine k).
Proof.
  intros k wi wo.
  pose proof (init_accepts_every_password Mock.world None)
    as (Hinit & H400 & H500 & H201).
  destruct (Hinit Mock.password) as (Hi & _).
  destruct (H201 Mock.password eq_refl) as (_ & Hr & Hl).
  split; [reflexivity|].
  split; [exact (H400 (Some EmptyString) eq_refl)|].
  split; [exact H500|].
  split; [reflexivity|].
  split; [exact Hi|].
  split; [exact Hr|].
  exact (Hl platform_sound Mock.world).
Defined.

(** Against C9 as the specification states it: [init] with the empty
    password throws nothing and returns an engine with no entries, whose
    sealed vault the empty password opens. *)
Lemma init_empty_password_returns_engine :
  let k := constructor Mock.salt (derived_key EmptyString Mock.salt) in
  result (init EmptyString Mock.world) = Return k /\
  secrets_vault k = ∅ /\
  result (load EmptyString (sealed_repr k Mock.world) None Mock.world)
  = Return (Engine k).
Proof.
  intros k. split; [now rewrite init_eq|]. split; [reflexivity|].
  rewrite load_accepted by reflexivity.
  apply open_sealed_repr, keyed_by_constructor.
Qed.

Lemma load_falsy_checksum_witness :
  truthy (Some (JStr EmptyString)) = false /\
  load Mock.password (sealed_repr Mock.engine Mock.world) (Some (JStr EmptyString))
    Mock.world
  = load Mock.password (sealed_repr Mock.engine Mock.world) None Mock.world /\
  result (load Mock.password (sealed_repr Mock.engine Mock.world)
            (Some (JStr EmptyString)) Mock.world)
  <> Throw (Error INTEGRITY_MESSAGE).
Proof.
  split; [reflexivity|].
  destruct (load_falsy_checksum Mock.password (sealed_repr Mock.engine Mock.world)
              (Some (JStr EmptyString)) Mock.world eq_refl)
    as (H1 & _ & H2 & _).
  split; assumption.
Defined.

(** The scenario of the specification: the stored secret is read back
    after a seal and an open. *)
Example scenario_opens :
  exists k repr checksum k',
    result (sealed_vault "correct horse" "github.com" "s3cr3t" Mock.world)
    = Return (k, (repr, checksum)) /\
    result (load "correct horse" repr (Some (JStr checksum)) Mock.world)
    = Return (Engine k') /\
    get k' "github.com" = VString "s3cr3t".
Proof.
  exists Mock.engine, (sealed_repr Mock.engine (logged (advanced Mock.world 16)
                        [CallRandom 16; CallImportKey; CallDeriveKey])).
  eexists. exists Mock.engine.
  split; [|split; [|reflexivity]].
  - unfold sealed_vault. unfold bind at 1. rewrite init_eq.
    unfold bind at 1. rewrite dump_eq. reflexivity.
  - rewrite load_accepted by apply checksum_accepted_own.
    apply open_sealed_repr, engine_keyed.
Qed.

End Runs.

(** * Further properties of the engine *)

(** ** Writing, reading and deleting an entry *)

Section Writes.

Context {pf : Platform}.

Lemma lookup_set (k : Keychain) (name value : string) :
  name <> "__proto__" -> secrets_vault (set k name value) !! name = Some value.
Proof.
  intros Hn. unfold set, assign; cbn [secrets_vault with_vault].
  rewrite bool_decide_eq_false_2 by (intros [? _]; contradiction).
  apply lookup_insert_eq.
Qed.

Lemma lookup_set_other (k : Keychain) (name value other : string) :
  other <> name -> secrets_vault (set k name value) !! other = secrets_vault k !! other.
Proof.
  intros Hn. unfold set, assign; cbn [secrets_vault with_vault].
  destruct (bool_decide _); [reflexivity|].
  now rewrite lookup_insert_ne by congruence.
Qed.

(** [get] reads the own property when there is one, and otherwise depends
    on the name only. *)
Lemma get_lookup (k k' : Keychain) (name : string) :
  secrets_vault k !! name = secrets_vault k' !! name -> get k name = get k' name.
Proof. unfold get, property. now intros ->. Qed.

Lemma not_inherited_proto (name : string) : name ∉ Object_prototype -> name <> "__proto__".
Proof.
  intros H ->. apply H. unfold Object_prototype. rewrite !elem_of_cons. tauto.
Qed.

End Writes.

(** X1. For every engine, every name other than [__proto__] and every
    non-empty value: after [set(name, value)], [get(name)] returns the
    value, and [get] of any other name returns what it returned before. *)
Theorem get_after_set
  {pf : Platform} (k : Keychain) (name value : string) :
  name <> "__proto__" ->
  value <> EmptyString ->
  get (set k name value) name = VString value /\
  (forall other : string, other <> name -> get (set k name value) other = get k other).
Proof.
  intros Hn Hv. split.
  - apply get_stored; [now apply lookup_set | assumption].
  - intros other Ho. apply get_lookup. now apply lookup_set_other.
Qed.

(** X2. For every engine, every name that [Object.prototype] does not
    define and every value: after [set(name, value)], [remove(name)] reports
    true and leaves the entries as they were before the [set] without the
    name; [get(name)] then returns null, [get] of any other name returns
    what it returned before the [set], and a second [remove(name)] reports
    false and changes nothing. *)
Theorem remove_after_set
  {pf : Platform} (k : Keychain) (name value : string) :
  name ∉ Object_prototype ->
  let k1 := snd (remove (set k name value) name) in
  fst (remove (set k name value) name) = true /\
  secrets_vault k1 = delete name (secrets_vault k) /\
  get k1 name = VNull /\
  (forall other : string, other <> name -> get k1 other = get k other) /\
  remove k1 name = (false, k1).
Proof.
  intros Hn k1.
  pose proof (not_inherited_proto name Hn) as Hp.
  destruct (remove_stored (set k name value) name) as [Hr Hl];
    [rewrite lookup_set by assumption; eauto|].
  assert (secrets_vault k1 = delete name (secrets_vault k)) as Hv.
  { subst k1. rewrite Hr. unfold set, assign; cbn [snd secrets_vault with_vault].
    rewrite bool_decide_eq_false_2 by (intros [? _]; contradiction).
    apply delete_insert_eq. }
  assert (secrets_vault k1 !! name = None) as Hnone
    by (rewrite Hv; apply lookup_delete_eq).
  split; [now rewrite Hr|]. split; [assumption|].
  split; [now apply get_missing|].
  split; [|now apply remove_missing].
  intros other Ho. apply get_lookup. rewrite Hv. now apply lookup_delete_ne.
Qed.

(** ** What [load] accepts and how it fails *)

Section Opening.

Context {pf : Platform}.

Ltac field_cases :=
  unfold sealed_fields, open_repr, JSON_parse_call, read_member, decodeBuffer,
    deriveKey, subtle_importKey, subtle_deriveKey, subtle_decrypt;
  unfold_async; cbn [fst snd mbind option_bind];
  repeat match goal with
    | |- context [JSON_parse ?s] =>
        destruct (JSON_parse s); cbn [fst snd mbind option_bind]
    | |- context [member ?o ?n] =>
        destruct (member o n); cbn [fst snd mbind option_bind]
    | |- context [Buffer_from_base64 ?x] =>
        destruct (Buffer_from_base64 x); cbn [fst snd mbind option_bind]
    | |- context [AES_GCM_decrypt ?k ?i ?c] =>
        destruct (AES_GCM_decrypt k i c); cbn [fst snd mbind option_bind]
    end.

(** A representation whose fields cannot be read is refused at once. *)
Lemma open_repr_malformed (password repr : string) (w : World) :
  sealed_fields repr = None ->
  (result (open_repr password repr w) = Throw SyntaxError \/
   result (open_repr password repr w) = Throw TypeError \/
   result (open_repr password repr w) = Throw RangeError) /\
  after (open_repr password repr w) = logged w [CallParse].
Proof.
  field_cases; intros H; try discriminate H; split; auto;
    match goal with
    | |- context [fault_error ?f] => destruct f; cbn [fault_error]; auto
    end.
Qed.

(** A representation that is not JSON gives the SyntaxError of [JSON.parse];
    one that is [null] the TypeError of reading a property of [null]. *)
Lemma open_repr_not_json (password repr : string) (w : World) :
  JSON_parse repr = None ->
  result (open_repr password repr w) = Throw SyntaxError.
Proof.
  intros H. unfold open_repr, JSON_parse_call. unfold_async. now rewrite H.
Qed.

Lemma open_repr_null (password repr : string) (w : World) :
  JSON_parse repr = Some JNull ->
  result (open_repr password repr w) = Throw TypeError.
Proof.
  intros H. unfold open_repr, JSON_parse_call, read_member. unfold_async.
  now rewrite H.
Qed.

(** The first field that [Buffer.from] refuses decides the exception. *)
Lemma open_repr_salt_fault (password repr : string) (w : World) (o : json)
  (field : option json) :
  JSON_parse repr = Some o ->
  member o "salt" = Some field ->
  Buffer_from_base64 field = None ->
  result (open_repr password repr w) = Throw (fault_error (Buffer_from_fault field)).
Proof.
  intros H1 H2 H3.
  unfold open_repr, JSON_parse_call, read_member, decodeBuffer. unfold_async.
  now rewrite H1, H2, H3.
Qed.

Lemma load_eq (password repr : string) (t : option json) (w : World) :
  load password repr t w =
  if checksum_accepted repr t
  then open_repr password repr (if truthy t then logged w [CallDigest] else w)
  else (Throw (Error INTEGRITY_MESSAGE), logged w [CallDigest]).
Proof.
  destruct (checksum_accepted repr t) eqn:E; [now apply load_accepted|].
  unfold checksum_accepted in E. apply orb_false_iff in E as [E1 E2].
  apply negb_false_iff in E1, E2.
  unfold load. unfold bind at 1. now rewrite verify_checksum_eq, E1, E2.
Qed.

End Opening.

(** X3. For every password, representation, expected checksum and world:
    when [load] throws, the exception is the integrity error, the
    decryption error, a SyntaxError (of [JSON.parse]), a TypeError (of
    reading a field of [null], or of [Buffer.from]) or a RangeError (of
    [Buffer.from]); the OperationError of [subtle.decrypt] never comes out
    of [load]. *)
Theorem load_throws
  {pf : Platform} (password repr : string) (t : option json) (w : World) (e : Exn) :
  result (load password repr t w) = Throw e ->
  (e = Error INTEGRITY_MESSAGE \/ e = Error DECRYPT_MESSAGE \/
   e = SyntaxError \/ e = TypeError \/ e = RangeError) /\
  e <> OperationError.
Proof.
  rewrite load_eq. destruct (checksum_accepted repr t).
  - intros H. apply open_repr_throws in H.
    split; [tauto | destruct H as [->|[->|[->| ->]]]; discriminate].
  - unfold result; cbn [fst]. intros H; inversion H; subst.
    split; [tauto | discriminate].
Qed.

(** X4. For every password, representation, expected checksum and world:
    when [load] returns, the checksum was accepted, the three fields of the
    representation were read, AES-GCM authenticated the ciphertext under
    the key derived from the given password and the salt of the
    representation, and the vault of the keychain returned is the parse of
    that plaintext; the salt of the keychain is the one of the
    representation, encoded again. *)
Theorem load_returns_authenticated
  {pf : Platform} (password repr : string) (t : option json) (w : World) (o : Opened) :
  result (load password repr t w) = Return o ->
  checksum_accepted repr t = true /\
  exists (salt iv ct plaintext : bytes) (vault : json),
    sealed_fields repr = Some (salt, iv, ct) /\
    AES_GCM_decrypt (derived_key password salt) iv ct = Some plaintext /\
    JSON_parse (bufferToString plaintext) = Some vault /\
    o = assign_vault (constructor salt (derived_key password salt)) vault.
Proof.
  rewrite load_eq. destruct (checksum_accepted repr t); [|discriminate].
  intros H. split; [reflexivity|].
  destruct (sealed_fields repr) as [[[salt iv] ct]|] eqn:Hf.
  - rewrite (open_repr_eq _ _ _ _ _ _ Hf) in H.
    destruct (AES_GCM_decrypt _ iv ct) as [plaintext|] eqn:Hd; [|discriminate].
    unfold result in H; cbn [fst] in H.
    destruct (JSON_parse (bufferToString plaintext)) as [vault|] eqn:Hp; [|discriminate].
    exists salt, iv, ct, plaintext, vault. inversion H. auto.
  - destruct (open_repr_malformed password repr
                (if truthy t then logged w [CallDigest] else w) Hf) as [[E|[E|E]] _];
      rewrite E in H; discriminate.
Qed.

(** X5. For every password and every representation whose checksum is
    accepted and whose fields cannot be read (it is not JSON, it is [null],
    or [Buffer.from] throws on a field): [load] throws a SyntaxError, a
    TypeError or a RangeError right after parsing the representation; it
    imports no key, derives no key and decrypts nothing.  The exception is
    the SyntaxError when the representation is not JSON, the TypeError when
    it is [null], and what [Buffer.from] throws (a TypeError or a
    RangeError) when it throws on the salt. *)
Theorem load_malformed_repr
  {pf : Platform} (password repr : string) (t : option json) (w : World) :
  checksum_accepted repr t = true ->
  sealed_fields repr = None ->
  (result (load password repr t w) = Throw SyntaxError \/
   result (load password repr t w) = Throw TypeError \/
   result (load password repr t w) = Throw RangeError) /\
  (JSON_parse repr = None -> result (load password repr t w) = Throw SyntaxError) /\
  (JSON_parse repr = Some JNull -> result (load password repr t w) = Throw TypeError) /\
  (forall (o : json) (field : option json),
     JSON_parse repr = Some o ->
     member o "salt" = Some field ->
     Buffer_from_base64 field = None ->
     result (load password repr t w) = Throw (fault_error (Buffer_from_fault field))) /\
  calls (after (load password repr t w))
  = (calls w ++ (if truthy t then [CallDigest] else []) ++ [CallParse])%list.
Proof.
  intros Hc Hf. rewrite load_eq, Hc.
  destruct (open_repr_malformed password repr
              (if truthy t then logged w [CallDigest] else w) Hf) as [Hr Ha].
  split; [assumption|].
  split; [apply open_repr_not_json|].
  split; [apply open_repr_null|].
  split; [apply open_repr_salt_fault|].
  rewrite Ha.
  destruct (truthy t); cbn [logged calls]; now rewrite <- ?app_assoc.
Qed.

(** ** A session, then a seal and an open *)

Section Sessions.

Context {pf : Platform}.

Lemma keyed_by_engine_after (password : string) (ops : list Op) :
  forall k : Keychain, keyed_by password k -> keyed_by password (engine_after ops k).
Proof.
  induction ops as [|[name|name value|name|] ops IH]; intros k Hk; cbn [engine_after];
    auto using keyed_by_set, keyed_by_remove.
Qed.

(** A session that ends with [dump] returns the engine after the calls and,
    last, the sealed form of that engine. *)
Lemma session_then_dump (ops : list Op) :
  forall (k : Keychain) (w : World),
  exists (dumps : list (string * string)) (w1 w' : World),
    session (ops ++ [OpDump]) k w
    = (Return (engine_after ops k,
               (dumps ++ [(sealed_repr (engine_after ops k) w1,
                           checksum_of (sealed_repr (engine_after ops k) w1))])%list),
       w').
Proof.
  induction ops as [|op ops IH]; intros k w.
  - exists [], w. eexists. cbn [app session engine_after].
    unfold bind at 1. rewrite dump_eq. reflexivity.
  - destruct op as [name|name value|name|]; cbn [app session engine_after].
    + apply IH.
    + apply IH.
    + apply IH.
    + destruct (IH k (logged (advanced w 12) [CallRandom 12; CallEncrypt; CallDigest]))
        as (dumps & w1 & w' & H).
      exists ((sealed_repr k w, checksum_of (sealed_repr k w)) :: dumps), w1, w'.
      unfold bind at 1. rewrite dump_eq. unfold bind at 1. now rewrite H.
Qed.

End Sessions.

(** X6. For every password and every sequence of calls of [get], [set],
    [remove] and [dump] on the engine that [init] returned: the
    representation that a final [dump] returns opens, under the same
    password, with its checksum or without one, to the engine as the calls
    of [set] and [remove] left it. *)
Theorem session_dump_load
  {pf : Platform} {sound : PlatformSound pf}
  (password : string) (ops : list Op) (w0 w2 : World) :
  exists (k : Keychain) (w w' : World) (dumps : list (string * string))
         (repr checksum : string),
    init password w0 = (Return k, w) /\
    session (ops ++ [OpDump]) k w
    = (Return (engine_after ops k, (dumps ++ [(repr, checksum)])%list), w') /\
    result (load password repr (Some (JStr checksum)) w2)
    = Return (Engine (engine_after ops k)) /\
    result (load password repr None w2) = Return (Engine (engine_after ops k)).
Proof.
  rewrite init_eq. eexists _, _.
  match goal with |- context [session _ ?k ?w] =>
    destruct (session_then_dump ops k w) as (dumps & w1 & w' & H);
    assert (keyed_by password (engine_after ops k)) as Hk
      by apply keyed_by_engine_after, keyed_by_constructor
  end.
  eexists w', dumps, _, _. split; [reflexivity|]. split; [exact H|].
  split.
  - rewrite load_accepted by apply checksum_accepted_own.
    now apply open_sealed_repr.
  - rewrite load_accepted by reflexivity.
    now apply open_sealed_repr.
Qed.

(** ** The routes of the server *)

Section Routes.

Context {pf : Platform}.

Lemma absent_false (s : string) : s <> EmptyString -> absent (Some s) = false.
Proof. intros H. simpl. now destruct (String.eqb_spec s EmptyString). Qed.

(** [POST /set] with a name stores the value and answers with the sealed
    form of the keychain after. *)
Lemma post_set_eq (native name value : string) (k : Keychain) (w : World) :
  name <> EmptyString ->
  post_set native (Some name) (Some value) (Some k) w =
  (Return ({| code := 200;
              sent := SentSealed (sealed_repr (set k name value) w)
                        (checksum_of (sealed_repr (set k name value) w)) |},
           Some (set k name value)),
   logged (advanced w 12) [CallRandom 12; CallEncrypt; CallDigest]).
Proof.
  intros H. cbn [post_set]. rewrite (absent_false _ H).
  unfold try_catch, bind. now rewrite dump_eq.
Qed.

Lemma get_get_eq (native name : string) (k : Keychain) (w : World) :
  name <> EmptyString ->
  get_get native (Some name) (Some k) w =
  (Return (match get k name with
           | VNull => {| code := 404; sent := SentError NOT_FOUND |}
           | value => {| code := 200; sent := SentValue name value |}
           end, Some k), w).
Proof.
  intros H. unfold get_get. rewrite (absent_false _ H).
  unfold try_catch. now destruct (get k name).
Qed.

Lemma post_remove_eq (native name : string) (k : Keychain) (w : World) :
  name <> EmptyString ->
  post_remove native (Some name) (Some k) w =
  if fst (remove k name)
  then (Return ({| code := 200;
                   sent := SentSealed (sealed_repr (snd (remove k name)) w)
                             (checksum_of (sealed_repr (snd (remove k name)) w)) |},
                Some (snd (remove k name))),
        logged (advanced w 12) [CallRandom 12; CallEncrypt; CallDigest])
  else (Return ({| code := 404; sent := SentError NOT_FOUND |},
                Some (snd (remove k name))), w).
Proof.
  intros H. cbn [post_remove]. rewrite (absent_false _ H).
  destruct (remove k name) as [[|] k']; cbn [negb fst snd]; [|reflexivity].
  unfold try_catch, bind. now rewrite dump_eq.
Qed.

Lemma post_load_eq (native password repr : string) (t : option json)
  (activeKeychain : option Keychain) (w : World) :
  password <> EmptyString ->
  repr <> EmptyString ->
  post_load native (Some password) (Some repr) t activeKeychain w =
  match load password repr t w with
  | (Return opened, w') =>
      (Return ({| code := 200; sent := SentMessage "Keychain loaded successfully" |},
               Some opened), w')
  | (Throw error, w') =>
      (Return ({| code := if includes (error_message native error) "Failed to decrypt"
                          then 401 else 500;
                  sent := SentError (error_message native error) |},
               Engine <$> activeKeychain), w')
  end.
Proof.
  intros Hp Hr. cbn [post_load]. rewrite (absent_false _ Hp), (absent_false _ Hr).
  cbn [orb]. unfold try_catch, bind.
  destruct (load password repr t w) as [[opened|error] w']; [reflexivity|].
  now destruct (includes _ _).
Qed.

Lemma elem_of_Object_keys (vault : gmap string string) (name : string) :
  name ∈ Object_keys vault <-> is_Some (vault !! name).
Proof.
  unfold Object_keys. rewrite list_elem_of_fmap. split.
  - intros [[n v] [-> H]]. apply elem_of_map_to_list in H. simpl. eauto.
  - intros [v H]. exists (name, v). split; [reflexivity|].
    now apply elem_of_map_to_list.
Qed.

End Routes.

(** X7. [GET /get-all-names] with an active engine (a keychain whose vault
    is an entries map) answers 200 with the names of the entries, each once
    and no other name (no name that the vault only inherits).  With an
    active keychain whose vault is [null], as [POST /load] leaves one when
    the decrypted text is [null], [Object.keys] throws and the route
    answers 500 with the message of that TypeError; with one whose vault is
    an object with a member that is not a string, it answers 200 with the
    names of the members.  In each case it makes no call to the platform
    and leaves the active keychain as it is. *)
Theorem get_all_names_lists_entries
  {pf : Platform} (native : string) (k : Keychain) (w : World) :
  (exists names : list string,
     get_get_all_names native (Some (Engine k)) w
     = (Return ({| code := 200; sent := SentNames names |}, Some (Engine k)), w) /\
     NoDup names /\
     forall name : string, name ∈ names <-> is_Some (secrets_vault k !! name)) /\
  get_get_all_names native (Some (Foreign k JNull)) w
  = (Return ({| code := 500; sent := SentError native |}, Some (Foreign k JNull)), w) /\
  (forall members : gmap string json,
     exists names : list string,
       get_get_all_names native (Some (Foreign k (JObj members))) w
       = (Return ({| code := 200; sent := SentNames names |},
                  Some (Foreign k (JObj members))), w) /\
       NoDup names /\
       forall name : string, name ∈ names <-> is_Some (members !! name)).
Proof.
  split; [|split].
  - exists (Object_keys (secrets_vault k)). split; [reflexivity|]. split.
    + apply NoDup_fst_map_to_list.
    + apply elem_of_Object_keys.
  - reflexivity.
  - intros members. exists ((map_to_list members).*1). split; [reflexivity|]. split.
    + apply NoDup_fst_map_to_list.
    + intros name. rewrite list_elem_of_fmap. split.
      * intros [[n v] [-> H]]. apply elem_of_map_to_list in H. simpl. eauto.
      * intros [v H]. exists (name, v). split; [reflexivity|].
        now apply elem_of_map_to_list.
Qed.

(** X8. For every active engine (a keychain whose vault is an entries map
    of strings, as [POST /init] makes one and as [POST /load] makes one
    from what an engine sealed), every non-empty name other than
    [__proto__] and every string value: [POST /set] answers 200 with the
    representation and the checksum that [dump] returns for the engine
    after the [set], and the engine then holds the value; a following
    [GET /get] of the name answers 200 with the value when the value is not
    empty, and 404 (name not found) when the value is the empty string,
    which [POST /set] accepts. *)
Theorem post_set_then_get
  {pf : Platform} (native name value : string) (k : Keychain) (w : World) :
  name <> EmptyString ->
  name <> "__proto__" ->
  exists (repr checksum : string) (k' : Keychain) (w' : World),
    post_set native (Some name) (Some value) (Some k) w
    = (Return ({| code := 200; sent := SentSealed repr checksum |}, Some k'), w') /\
    k' = set k name value /\
    dump k' w = (Return (repr, checksum), w') /\
    secrets_vault k' !! name = Some value /\
    (value <> EmptyString ->
     get_get native (Some name) (Some k') w'
     = (Return ({| code := 200; sent := SentValue name (VString value) |}, Some k'), w')) /\
    (value = EmptyString ->
     get_get native (Some name) (Some k') w'
     = (Return ({| code := 404; sent := SentError NOT_FOUND |}, Some k'), w')).
Proof.
  intros Hn Hp. rewrite post_set_eq by assumption.
  eexists _, _, _, _. split; [reflexivity|].
  split; [reflexivity|]. split; [apply dump_eq|].
  pose proof (lookup_set k name value Hp) as Hl.
  split; [assumption|]. rewrite get_get_eq by assumption. split.
  - intros Hv. now rewrite (get_stored _ _ _ Hl Hv).
  - intros ->. unfold get, property. now rewrite Hl.
Qed.

(** X9. For every active engine (a keychain whose vault is an entries map
    of strings) and every non-empty name that [Object.prototype] does not
    define: when the engine has no entry of that name, [POST /remove]
    answers 404, seals nothing (no call to the platform) and leaves the
    engine as it is; when it has one, [POST /remove] answers 200 with the
    sealed form of the engine without the entry, and a following
    [GET /get] of the name answers 404. *)
Theorem post_remove_outcomes
  {pf : Platform} (native name : string) (k : Keychain) (w : World) :
  name <> EmptyString ->
  name ∉ Object_prototype ->
  (secrets_vault k !! name = None ->
   post_remove native (Some name) (Some k) w
   = (Return ({| code := 404; sent := SentError NOT_FOUND |}, Some k), w)) /\
  (is_Some (secrets_vault k !! name) ->
   exists (k' : Keychain) (w' : World),
     post_remove native (Some name) (Some k) w
     = (Return ({| code := 200;
                   sent := SentSealed (sealed_repr k' w) (checksum_of (sealed_repr k' w)) |},
                Some k'), w') /\
     secrets_vault k' = delete name (secrets_vault k) /\
     get_get native (Some name) (Some k') w'
     = (Return ({| code := 404; sent := SentError NOT_FOUND |}, Some k'), w')).
Proof.
  intros Hn Hi. rewrite post_remove_eq by assumption. split.
  - intros Hl. now rewrite (remove_missing k name Hl Hi).
  - intros Hs. destruct (remove_stored k name Hs) as [Hr Hl]. rewrite Hr in *.
    cbn [fst snd] in *. eexists _, _. split; [reflexivity|].
    split; [reflexivity|].
    rewrite get_get_eq by assumption. now rewrite (get_missing _ _ Hl Hi).
Qed.




(** X13. Whatever engine is active, or none: a request that lacks what
    its route requires is refused and changes nothing (no call to the
    platform is made and the active keychain stays as it is).  It is
    answered 400: [GET /get] and [POST /remove] with no keychain active or
    with a missing or empty name; [POST /set] with no keychain active, a
    missing or empty name or a missing value; [GET /get-all-names] with no
    keychain active; [POST /load] with a missing or empty password or
    representation.  A request whose body is [undefined] is answered with
    the message of the TypeError of the destructuring: by [POST /set] and
    [POST /remove], when a keychain is active, with 500; by [POST /load]
    with 500, or 401 should that message include the words that the handler
    looks for. *)
Theorem refused_requests_change_nothing
  {pf : Platform} (native : string) (activeKeychain : option Keychain) (w : World) :
  (forall name : option string,
     activeKeychain = None \/ absent name = true ->
     exists error : string,
       get_get native name activeKeychain w
       = (Return ({| code := 400; sent := SentError error |}, activeKeychain), w)) /\
  (forall (req_body : option (option string * option string)),
     activeKeychain = None \/
     (exists name value : option string,
        req_body = Some (name, value) /\ (absent name = true \/ value = None)) ->
     exists error : string,
       request_set native req_body activeKeychain w
       = (Return ({| code := 400; sent := SentError error |}, activeKeychain), w)) /\
  (activeKeychain <> None ->
   request_set native None activeKeychain w
   = (Return ({| code := 500; sent := SentError native |}, activeKeychain), w)) /\
  (forall req_body : option (option string),
     activeKeychain = None \/
     (exists name : option string, req_body = Some name /\ absent name = true) ->
     exists error : string,
       request_remove native req_body activeKeychain w
       = (Return ({| code := 400; sent := SentError error |}, activeKeychain), w)) /\
  (activeKeychain <> None ->
   request_remove native None activeKeychain w
   = (Return ({| code := 500; sent := SentError native |}, activeKeychain), w)) /\
  (exists error : string,
     get_get_all_names native None w
     = (Return ({| code := 400; sent := SentError error |}, None), w)) /\
  (forall (password repr : option string) (t : option json),
     absent password = true \/ absent repr = true ->
     request_load native (Some (password, repr, t)) activeKeychain w
     = (Return ({| code := 400; sent := SentError "Password and repr are required" |},
                Engine <$> activeKeychain), w)) /\
  request_load native None activeKeychain w
  = (Return ({| code := if includes native "Failed to decrypt" then 401 else 500;
                sent := SentError native |},
             Engine <$> activeKeychain), w).
Proof.
  split; [|split; [|split; [|split; [|split; [|split; [|split]]]]]].
  - intros name [-> | Hn]; [eexists; reflexivity|].
    destruct activeKeychain as [k|]; [|eexists; reflexivity].
    unfold get_get, try_catch.
    destruct name as [n|]; [rewrite Hn|]; eexists; reflexivity.
  - intros req_body H.
    destruct activeKeychain as [k|]; [|eexists; reflexivity].
    destruct H as [H | (name & value & -> & H)]; [discriminate|].
    unfold request_set, destructure, of_option.
    unfold try_catch at 1. unfold bind at 1. unfold ret at 1.
    destruct H as [Hn | ->].
    + cbn [post_set]. destruct name as [n|], value as [v|];
        try rewrite Hn; eexists; reflexivity.
    + cbn [post_set]. destruct name as [n|]; eexists; reflexivity.
  - intros H. destruct activeKeychain as [k|]; [reflexivity | contradiction].
  - intros req_body H.
    destruct activeKeychain as [k|]; [|eexists; reflexivity].
    destruct H as [H | (name & -> & Hn)]; [discriminate|].
    unfold request_remove, destructure, of_option.
    unfold try_catch at 1. unfold bind at 1. unfold ret at 1.
    cbn [post_remove]. destruct name as [n|]; [rewrite Hn|]; eexists; reflexivity.
  - intros H. destruct activeKeychain as [k|]; [reflexivity | contradiction].
  - eexists; reflexivity.
  - intros password repr t H.
    unfold request_load, destructure, of_option.
    unfold try_catch at 1. unfold bind at 1. unfold ret at 1.
    unfold post_load.
    destruct password as [p|], repr as [r|]; try reflexivity.
    destruct H as [-> | ->]; [reflexivity | now rewrite orb_true_r].
  - unfold request_load, destructure, of_option, try_catch, bind, throw.
    cbn [error_message]. now destruct (includes native "Failed to decrypt").
Qed.

(** ** More runs on the small platform *)

Section MoreRuns.

#[local] Existing Instance Mock.platform.
#[local] Existing Instance platform_sound.

Lemma github_not_inherited : "github.com" ∉ Object_prototype.
Proof.
  unfold Object_prototype. rewrite !elem_of_cons, elem_of_nil. intuition discriminate.
Qed.

Lemma get_after_set_witness :
  "gitlab.com" <> "__proto__" /\
  "hunter2" <> EmptyString /\
  get (set Mock.engine "gitlab.com" "hunter2") "gitlab.com" = VString "hunter2" /\
  get (set Mock.engine "gitlab.com" "hunter2") "github.com" = get Mock.engine "github.com".
Proof.
  split; [discriminate|]. split; [discriminate|].
  destruct (get_after_set Mock.engine "gitlab.com" "hunter2") as [H1 H2];
    [discriminate | discriminate |].
  split; [exact H1 | apply H2; discriminate].
Defined.

Lemma remove_after_set_witness :
  ("github.com" ∉ Object_prototype) /\
  fst (remove (set Mock.engine "github.com" "other") "github.com") = true /\
  get (snd (remove (set Mock.engine "github.com" "other") "github.com")) "github.com"
  = VNull.
Proof.
  split; [apply github_not_inherited|].
  destruct (remove_after_set Mock.engine "github.com" "other" github_not_inherited)
    as (H1 & _ & H2 & _).
  split; assumption.
Defined.

Lemma load_stale_checksum :
  result (load Mock.password "x" (Some (JStr "stale")) Mock.world)
  = Throw (Error INTEGRITY_MESSAGE).
Proof. reflexivity. Qed.

Lemma load_throws_witness :
  result (load Mock.password "x" (Some (JStr "stale")) Mock.world)
  = Throw (Error INTEGRITY_MESSAGE) /\
  Error INTEGRITY_MESSAGE <> OperationError.
Proof.
  split; [apply load_stale_checksum|].
  apply (load_throws Mock.password "x" (Some (JStr "stale")) Mock.world
           (Error INTEGRITY_MESSAGE) load_stale_checksum).
Defined.

Lemma load_engine :
  result (load Mock.password (sealed_repr Mock.engine Mock.world) None Mock.world)
  = Return (Engine Mock.engine).
Proof.
  rewrite load_accepted by reflexivity. apply open_sealed_repr, engine_keyed.
Qed.

Lemma load_returns_authenticated_witness :
  result (load Mock.password (sealed_repr Mock.engine Mock.world) None Mock.world)
  = Return (Engine Mock.engine) /\
  exists (salt iv ct plaintext : bytes) (vault : json),
    sealed_fields (sealed_repr Mock.engine Mock.world) = Some (salt, iv, ct) /\
    AES_GCM_decrypt (derived_key Mock.password salt) iv ct = Some plaintext /\
    JSON_parse (bufferToString plaintext) = Some vault /\
    Engine Mock.engine
    = assign_vault (constructor salt (derived_key Mock.password salt)) vault.
Proof.
  split; [apply load_engine|].
  apply (load_returns_authenticated Mock.password (sealed_repr Mock.engine Mock.world)
           None Mock.world (Engine Mock.engine) load_engine).
Defined.

Lemma not_json_fields : sealed_fields "not json" = None.
Proof. reflexivity. Qed.

Lemma oversized_salt_fields : sealed_fields Mock.OVERSIZED_SALT = None.
Proof. reflexivity. Qed.

Lemma oversized_salt_member :
  member (JObj {["salt" := Mock.oversized]}) "salt" = Some (Some Mock.oversized).
Proof. reflexivity. Qed.

Lemma oversized_salt_fault :
  fault_error (Buffer_from_fault (Some Mock.oversized)) = RangeError.
Proof. reflexivity. Qed.

Lemma load_malformed_repr_witness :
  checksum_accepted Mock.OVERSIZED_SALT None = true /\
  sealed_fields Mock.OVERSIZED_SALT = None /\
  result (load Mock.password Mock.OVERSIZED_SALT None Mock.world) = Throw RangeError /\
  calls (after (load Mock.password Mock.OVERSIZED_SALT None Mock.world)) = [CallParse] /\
  result (load Mock.password "not json" None Mock.world) = Throw SyntaxError.
Proof.
  split; [reflexivity|]. split; [reflexivity|].
  destruct (load_malformed_repr Mock.password Mock.OVERSIZED_SALT None Mock.world
              eq_refl oversized_salt_fields) as (_ & _ & _ & Hsalt & Hcalls).
  split; [|split; [exact Hcalls|]].
  - rewrite <- oversized_salt_fault.
    apply (Hsalt _ _ eq_refl oversized_salt_member eq_refl).
  - destruct (load_malformed_repr Mock.password "not json" None Mock.world
                eq_refl not_json_fields) as (_ & H & _).
    apply H. reflexivity.
Defined.

Lemma session_dump_load_witness :
  PlatformSound Mock.platform /\
  exists (k : Keychain) (w w' : World) (dumps : list (string * string))
         (repr checksum : string),
    init Mock.password Mock.world = (Return k, w) /\
    session ([OpSet "github.com" "s3cr3t"; OpDump; OpRemove "github.com"] ++ [OpDump]) k w
    = (Return (engine_after [OpSet "github.com" "s3cr3t"; OpDump; OpRemove "github.com"] k,
               (dumps ++ [(repr, checksum)])%list), w') /\
    result (load Mock.password repr (Some (JStr checksum)) Mock.world)
    = Return (Engine (engine_after
                        [OpSet "github.com" "s3cr3t"; OpDump; OpRemove "github.com"] k)).
Proof.
  split; [exact platform_sound|].
  destruct (session_dump_load (sound := platform_sound) Mock.password
              [OpSet "github.com" "s3cr3t"; OpDump; OpRemove "github.com"]
              Mock.world Mock.world)
    as (k & w & w' & dumps & repr & checksum & H1 & H2 & H3 & _).
  exists k, w, w', dumps, repr, checksum. repeat split; assumption.
Defined.

Lemma post_set_then_get_witness :
  "gitlab.com" <> EmptyString /\
  "gitlab.com" <> "__proto__" /\
  exists (repr checksum : string) (k' : Keychain) (w' : World),
    post_set EmptyString (Some "gitlab.com") (Some "hunter2") (Some Mock.engine) Mock.world
    = (Return ({| code := 200; sent := SentSealed repr checksum |}, Some k'), w') /\
    get_get EmptyString (Some "gitlab.com") (Some k') w'
    = (Return ({| code := 200; sent := SentValue "gitlab.com" (VString "hunter2") |},
               Some k'), w').
Proof.
  split; [discriminate|]. split; [discriminate|].
  destruct (post_set_then_get EmptyString "gitlab.com" "hunter2" Mock.engine Mock.world)
    as (repr & checksum & k' & w' & H1 & _ & _ & _ & H2 & _);
    [discriminate | discriminate |].
  exists repr, checksum, k', w'. split; [exact H1 | apply H2; discriminate].
Defined.

Lemma post_remove_outcomes_witness :
  "github.com" <> EmptyString /\
  ("github.com" ∉ Object_prototype) /\
  is_Some (secrets_vault Mock.engine !! "github.com") /\
  exists (k' : Keychain) (w' : World),
    post_remove EmptyString (Some "github.com") (Some Mock.engine) Mock.world
    = (Return ({| code := 200;
                  sent := SentSealed (sealed_repr k' Mock.world)
                            (checksum_of (sealed_repr k' Mock.world)) |},
               Some k'), w') /\
    post_remove EmptyString (Some "github.com") (Some k') w'
    = (Return ({| code := 404; sent := SentError NOT_FOUND |}, Some k'), w').
Proof.
  split; [discriminate|]. split; [apply github_not_inherited|].
  assert (is_Some (secrets_vault Mock.engine !! "github.com")) as Hs
    by (exists "s3cr3t"; reflexivity).
  split; [exact Hs|].
  destruct (post_remove_outcomes EmptyString "github.com" Mock.engine Mock.world)
    as [_ H]; [discriminate | apply github_not_inherited |].
  destruct (H Hs) as (k' & w' & H1 & H2 & _).
  exists k', w'. split; [exact H1|].
  destruct (post_remove_outcomes EmptyString "github.com" k' w') as [H3 _];
    [discriminate | apply github_not_inherited |].
  apply H3. rewrite H2. apply lookup_delete_eq.
Defined.



(** On the small platform the text of the object [{salt, iv, ciphertext}]
    is not empty: the empty text parses to the object with no property. *)
Lemma repr_text_not_empty (salt iv ct : string) :
  JSON_stringify (repr_object salt iv ct) <> EmptyString.
Proof.
  intros H.
  pose proof (JSON_parse_stringify
                (<["salt" := salt]> (<["iv" := iv]> (<["ciphertext" := ct]> ∅)))) as Hp.
  fold (repr_object salt iv ct) in Hp. rewrite H in Hp.
  assert (Some (string_object ∅) = Some (repr_object salt iv ct)) as E
    by (rewrite <- Hp; reflexivity).
  assert (member (string_object ∅) "salt" = member (repr_object salt iv ct) "salt")
    as E' by congruence.
  rewrite member_salt in E'. unfold string_object, member in E'.
  rewrite fmap_empty, lookup_empty in E'. discriminate.
Qed.


Lemma refused_requests_change_nothing_witness :
  absent (Some EmptyString) = true /\
  (exists error : string,
     request_set Mock.NATIVE_MESSAGE (Some (Some EmptyString, Some "s3cr3t"))
       (Some Mock.engine) Mock.world
     = (Return ({| code := 400; sent := SentError error |}, Some Mock.engine),
        Mock.world)) /\
  request_set Mock.NATIVE_MESSAGE None (Some Mock.engine) Mock.world
  = (Return ({| code := 500; sent := SentError Mock.NATIVE_MESSAGE |}, Some Mock.engine),
     Mock.world) /\
  request_load Mock.NATIVE_MESSAGE
    (Some (Some Mock.password, Some EmptyString, Some (JStr "stale")))
    (Some Mock.engine) Mock.world
  = (Return ({| code := 400; sent := SentError "Password and repr are required" |},
             Some (Engine Mock.engine)), Mock.world) /\
  request_load Mock.NATIVE_MESSAGE None (Some Mock.engine) Mock.world
  = (Return ({| code := 500; sent := SentError Mock.NATIVE_MESSAGE |},
             Some (Engine Mock.engine)), Mock.world).
Proof.
  split; [reflexivity|].
  destruct (refused_requests_change_nothing Mock.NATIVE_MESSAGE (Some Mock.engine)
              Mock.world)
    as (_ & Hset & Hset500 & _ & _ & _ & Hload & Hload500).
  split; [|split; [|split]].
  - apply Hset. right. exists (Some EmptyString), (Some "s3cr3t").
    split; [reflexivity | left; reflexivity].
  - apply Hset500. discriminate.
  - apply Hload. right. reflexivity.
  - exact Hload500.
Defined.

Lemma load_null_vault :
  result (load Mock.password Mock.repr_of_null None Mock.world)
  = Return (Foreign (constructor Mock.salt (derived_key Mock.password Mock.salt)) JNull).
Proof.
  rewrite load_accepted by reflexivity.
  rewrite (open_repr_eq _ _ _ _ _ _ sealed_fields_null), decrypt_null.
  reflexivity.
Qed.

Lemma get_all_names_lists_entries_witness :
  let k := constructor Mock.salt (derived_key Mock.password Mock.salt) in
  result (post_load Mock.NATIVE_MESSAGE (Some Mock.password) (Some Mock.repr_of_null) None
            None Mock.world)
  = Return ({| code := 200; sent := SentMessage "Keychain loaded successfully" |},
            Some (Foreign k JNull)) /\
  get_get_all_names Mock.NATIVE_MESSAGE (Some (Foreign k JNull)) Mock.world
  = (Return ({| code := 500; sent := SentError Mock.NATIVE_MESSAGE |},
             Some (Foreign k JNull)), Mock.world) /\
  exists names : list string,
    get_get_all_names Mock.NATIVE_MESSAGE (Some (Engine Mock.engine)) Mock.world
    = (Return ({| code := 200; sent := SentNames names |}, Some (Engine Mock.engine)),
       Mock.world) /\
    "github.com" ∈ names.
Proof.
  intros k. split.
  - rewrite post_load_eq; [|discriminate|apply repr_text_not_empty].
    pose proof load_null_vault as H.
    destruct (load Mock.password Mock.repr_of_null None Mock.world) as [r w'].
    unfold result in H; cbn [fst] in H. now subst r.
  - destruct (get_all_names_lists_entries Mock.NATIVE_MESSAGE k Mock.world)
      as (_ & H500 & _).
    split; [exact H500|].
    destruct (get_all_names_lists_entries Mock.NATIVE_MESSAGE Mock.engine Mock.world)
      as ((names & H200 & _ & Hin) & _).
    exists names. split; [exact H200|].
    apply Hin. exists "s3cr3t". reflexivity.
Defined.

End MoreRuns.
